(** * Weeports: weekly GitLab activity reports

    A shallow embedding of the report-generation pipeline of
    [y3ro/weeports] and the properties of its specification.

    The repository is a single Go program that exists in several
    revisions.  Two of them are modelled in full:

    - [Weekly]: [weeports.go], the revision that reports one fixed week
      and has no merge-request correlation;
    - [Weeks]: the revision with the [-weeks] flag, markdown headings and
      merge-request correlation ([slugify], [fetchIssueLastMergeRequest]).

    The intermediate revision (merge-request correlation, one fixed week)
    has the closed-issue loop of [Weekly] and the [slugify] and
    [fetchIssueLastMergeRequest] of [Weeks], verbatim.

    Go strings are byte strings and are modelled by [string]; [int]
    identifiers by [Z]; a slice by a [list]; [map[int]T] by [gmap Z T];
    a nil-able pointer by [option]; [log.Fatal] and a nil dereference by
    the two failing cases of [outcome]. *)

From Stdlib Require Import String Ascii ZArith Lia.
From stdpp Require Import gmap list strings.
From Equations Require Import Equations.

(* ===================================================================== *)
(** * Part I: the Go runtime and library pieces the program uses         *)
(* ===================================================================== *)

Module Go.

(** ** Outcomes of a call: a value, [log.Fatal], or a run-time panic *)

Inductive outcome (A : Type) : Type :=
| Ok (a : A)
| Fatal
| Panic.
Arguments Ok {A} a.
Arguments Fatal {A}.
Arguments Panic {A}.

#[export] Instance outcome_ret : MRet outcome := fun A a => Ok a.
#[export] Instance outcome_bind : MBind outcome := fun A B k m =>
  match m with
  | Ok a => k a
  | Fatal => Fatal
  | Panic => Panic
  end.

(** ** Slices *)

(** [slices.Delete(s, i, j)] removes [s[i:j]]; the bounds check
    [s[i:j:len(s)]] is made by the caller of this function below. *)
Definition slices_Delete {A} (s : list A) (i j : nat) : list A :=
  take i s ++ drop j s.

(** The loop shape shared by the three filters of the program:
<<
    for i := 0; i < len(s); i++ {
        x := s[i]
        if del(x) { s = slices.Delete(s, i, i+w) }
    }
>>
    [w] is 0 where the source writes [slices.Delete(s, i, i)] and 1 where
    it writes [slices.Delete(s, i, i+1)].  The index is incremented after
    a deletion as well, exactly as in the source. *)
Equations? forDelete {A} (del : A -> bool) (w : nat) (i : nat) (s : list A)
  : outcome (list A) by wf (length s - i) lt :=
  forDelete del w i s with decide (i < length s) := {
    | right _ := Ok s
    | left _ with s !! i := {
        | None := Panic
        | Some x with del x := {
            | true with decide (i + w <= length s) := {
                | left _ := forDelete del w (S i) (slices_Delete s i (i + w))
                | right _ := Panic }
            | false := forDelete del w (S i) s } } }.
Proof.
  - unfold slices_Delete. rewrite length_app, length_take, length_drop. lia.
  - lia.
Qed.

(** ** Strings *)

Definition CR : ascii := "013"%char.
Definition LF : ascii := "010"%char.
Definition TAB : ascii := "009"%char.
Definition CRLF : string := String CR (String LF EmptyString).

(** [strings.Join(elems, sep)] *)
Definition strings_Join (elems : list string) (sep : string) : string :=
  String.concat sep elems.

(** The character class of the regular expression ["[^a-zA-Z0-9]"] is
    the complement of [isAlnum].  A byte of a multi-byte UTF-8 rune, or
    an invalid byte, is at least 128, so deleting the runes that match
    the class is deleting the bytes that do. *)
Definition isAlnum (c : ascii) : bool :=
  let n := nat_of_ascii c in
  ((97 <=? n) && (n <=? 122)) || ((65 <=? n) && (n <=? 90))
  || ((48 <=? n) && (n <=? 57)).

(** [regexp.MustCompile("[^a-zA-Z0-9]").ReplaceAllString(s, empty)]: every
    match of the class is replaced by the empty string. *)
Fixpoint ReplaceAllNonAlnum (s : string) : string :=
  match s with
  | EmptyString => EmptyString
  | String c rest =>
      if isAlnum c then String c (ReplaceAllNonAlnum rest)
      else ReplaceAllNonAlnum rest
  end.

Definition toLower (c : ascii) : ascii :=
  let n := nat_of_ascii c in
  if (65 <=? n) && (n <=? 90) then ascii_of_nat (n + 32) else c.

(** [strings.ToLower] on ASCII text (the program applies it to the
    output of [ReplaceAllNonAlnum] only). *)
Fixpoint ToLower (s : string) : string :=
  match s with
  | EmptyString => EmptyString
  | String c rest => String (toLower c) (ToLower rest)
  end.

(** ** White space

    [len(strings.TrimSpace(s)) == 0] holds when [s] is a sequence of
    white-space runes.  [unicode.IsSpace] accepts U+0009 to U+000D, U+0020,
    U+0085, U+00A0, U+1680, U+2000 to U+200A, U+2028, U+2029, U+202F,
    U+205F and U+3000; [spaceWidth] recognises their UTF-8 encodings.  Any
    other byte sequence, an invalid one included, decodes to a rune that
    is not white space. *)

Definition asciiSpace (c : ascii) : bool :=
  let n := nat_of_ascii c in
  ((9 <=? n) && (n <=? 13)) || (n =? 32).

(** The width in bytes of the white-space rune [s] begins with; 0 when [s]
    does not begin with one. *)
Definition spaceWidth (s : string) : nat :=
  match s with
  | EmptyString => 0
  | String c1 rest1 =>
      let b1 := nat_of_ascii c1 in
      if asciiSpace c1 then 1
      else
        match rest1 with
        | EmptyString => 0
        | String c2 rest2 =>
            let b2 := nat_of_ascii c2 in
            if (b1 =? 194) && ((b2 =? 133) || (b2 =? 160)) then 2
            else
              match rest2 with
              | EmptyString => 0
              | String c3 _ =>
                  let b3 := nat_of_ascii c3 in
                  if (b1 =? 225) && (b2 =? 154) && (b3 =? 128) then 3
                  else if (b1 =? 226) && (b2 =? 128)
                          && (((128 <=? b3) && (b3 <=? 138))
                              || (b3 =? 168) || (b3 =? 169) || (b3 =? 175))
                  then 3
                  else if (b1 =? 226) && (b2 =? 129) && (b3 =? 159) then 3
                  else if (b1 =? 227) && (b2 =? 128) && (b3 =? 128) then 3
                  else 0
              end
        end
  end.

(** [skip] is the number of bytes left of the rune being stepped over. *)
Fixpoint allSpaceFrom (skip : nat) (s : string) : bool :=
  match s with
  | EmptyString => true
  | String _ rest =>
      match skip with
      | S k => allSpaceFrom k rest
      | 0 =>
          match spaceWidth s with
          | 0 => false
          | S w => allSpaceFrom w rest
          end
      end
  end.

(** [len(strings.TrimSpace(s)) == 0] *)
Definition TrimSpace_empty (s : string) : bool := allSpaceFrom 0 s.

(** ** Decimal printing *)

Definition digit (n : nat) : ascii := ascii_of_nat (48 + n mod 10).

Fixpoint decimal (fuel n : nat) (acc : string) : string :=
  match fuel with
  | 0 => acc
  | S fuel' =>
      let acc' := String (digit n) acc in
      if n <? 10 then acc' else decimal fuel' (n / 10) acc'
  end.

(** [strconv.Itoa] on a non-negative number *)
Definition Itoa (n : nat) : string := decimal (S n) n EmptyString.

Fixpoint zeros (k : nat) : string :=
  match k with
  | 0 => EmptyString
  | S k' => String "0" (zeros k')
  end.

(** [appendInt] of package [time]: decimal, zero-padded to [width]. *)
Definition appendInt (x width : nat) : string :=
  let s := Itoa x in zeros (width - String.length s) +:+ s.

(** ** Calendar dates and [Time.Format] *)

Record Time := { Year : nat; Month : nat; Day : nat }.

(** [formatFrom skip layout t] walks the layout one byte at a time; at a
    reference element it emits the field and skips the element's
    remaining [skip] bytes.  The elements recognised are those of the
    program's layouts: ["2006"] (year), ["01"] (month), ["02"] (day of
    month); every other byte is copied. *)
Fixpoint formatFrom (skip : nat) (layout : string) (t : Time) : string :=
  match layout with
  | EmptyString => EmptyString
  | String c rest =>
      match skip with
      | S k => formatFrom k rest t
      | 0 =>
          if String.prefix "2006" layout
          then appendInt (Year t) 4 +:+ formatFrom 3 rest t
          else if String.prefix "01" layout
          then appendInt (Month t) 2 +:+ formatFrom 1 rest t
          else if String.prefix "02" layout
          then appendInt (Day t) 2 +:+ formatFrom 1 rest t
          else String c (formatFrom 0 rest t)
      end
  end.

Definition Format (t : Time) (layout : string) : string :=
  formatFrom 0 layout t.

(** A point in time given as [t.AddDate(years, months, days)]. *)
Inductive Instant := AddDate (t : Time) (years months days : Z).

(** ** Iteration over a map

    [for k, v := range m] visits every entry once, in an order the
    language leaves unspecified.  A [MapRange] is one such choice. *)
Record MapRange (V : Type) := {
  visit : gmap Z V -> list (Z * V);
  visit_perm : forall m, visit m ≡ₚ map_to_list m
}.
Arguments visit {V} _ _.
Arguments visit_perm {V} _ _.

End Go.
Export Go.

(* ===================================================================== *)
(** * Part II: the GitLab client, as the program sees it                  *)
(* ===================================================================== *)

Module Gitlab.

Record IssueAssignee := { AssigneeID : Z }.

(** [ISOTime] is a date; its [String] method is
    [time.Time(t).Format("2006-01-02")]. *)
Definition ISOTime := Time.
Definition ISOTime_String (t : ISOTime) : string := Format t "2006-01-02".

Record Issue := {
  ID : Z;
  Title : string;
  ProjectID : Z;
  Assignee : option IssueAssignee;
  DueDate : option ISOTime;
  WebURL : string;
  MovedToID : Z
}.

Record MergeRequest := {
  MR_ID : Z;
  MR_Title : string;
  SourceBranch : string;
  MR_WebURL : string
}.

Record Project := { Project_ID : Z; Name : string }.

Record ListIssuesOptions := {
  opt_Scope : option string;
  opt_AssigneeUsername : string;
  opt_UpdatedAfter : option Instant;
  opt_DueDate : option string;
  opt_State : string
}.

Record ListMergeRequestsOptions := {
  opt_AuthorID : Z;
  opt_MRState : string
}.

Record ListProjectsOptions := {
  opt_Membership : bool;
  opt_LastActivityAfter : Instant
}.

Record Response := { Status : string; StatusCode : Z }.

(** What a [List...] call returns: the records, the HTTP response and
    whether [err != nil]. *)
Record Listing (A : Type) := {
  items : list A;
  response : Response;
  err : bool
}.
Arguments items {A} _.
Arguments response {A} _.
Arguments err {A} _.

(** The remote service is a black box: one answer per request. *)
Record Client := {
  ListIssues : ListIssuesOptions -> Listing Issue;
  ListProjects : ListProjectsOptions -> Listing Project;
  ListMergeRequests : ListMergeRequestsOptions -> Listing MergeRequest
}.

End Gitlab.
Export Gitlab.

Record Config := {
  GitlabUrl : string;
  GitlabToken : string;
  GitlabUsername : string;
  SMTPUsername : string;
  SMTPPassword : string;
  SMTPHost : string;
  SMTPPort : string;
  RecipientEmail : string
}.

(** [smtp.SendMail(addr, auth, from, to, msg)]: [true] when [err != nil]. *)
Definition Transport := string -> string -> list string -> string -> bool.

(* ===================================================================== *)
(** * Part III: functions that are the same in every revision             *)
(* ===================================================================== *)

Section Common.
Variable config : Config.
Variable gitlabClient : Client.
Variable now : Time.

Definition fetchProjectNameMap : outcome (gmap Z string) :=
  let r := ListProjects gitlabClient
             {| opt_Membership := true;
                opt_LastActivityAfter := AddDate now 0 0 (-7) |} in
  if err r || negb (StatusCode (response r) =? 200)%Z then Fatal
  else
    Ok (foldl (fun projectNameMap project =>
                 <[Project_ID project := Name project]> projectNameMap)
              ∅ (items r)).

Definition groupIssuesByProject (issues : list Issue) : gmap Z (list Issue) :=
  foldl (fun projectIssues issue =>
           <[ProjectID issue :=
               default [] (projectIssues !! ProjectID issue) ++ [issue]]>
             projectIssues)
        ∅ issues.

(** [checkConfigFields]: [Ok None] is the nil error, [Ok (Some msg)] the
    error [errors.New(msg)], [Fatal] a [log.Fatalln]. *)
Definition checkConfigFields : outcome (option string) :=
  if String.eqb (GitlabUrl config) EmptyString
  then Ok (Some "no GitLab URL specified in the config file")
  else if String.eqb (GitlabToken config) EmptyString
  then Ok (Some "no GitLab secret token specified in the config file")
  else if String.eqb (GitlabUsername config) EmptyString
  then Ok (Some "no GitLab username specified in the config file")
  else if String.eqb (SMTPUsername config) EmptyString then Fatal
  else if String.eqb (SMTPPassword config) EmptyString then Fatal
  else if String.eqb (SMTPHost config) EmptyString then Fatal
  else if String.eqb (SMTPPort config) EmptyString then Fatal
  else if String.eqb (RecipientEmail config) EmptyString then Fatal
  else Ok None.

End Common.

(* ===================================================================== *)
(** * Part IV: [weeports.go]                                              *)
(* ===================================================================== *)

Module Weekly.
Section Program.
Variable config : Config.
Variable gitlabClient : Client.
Variable now : Time.
Variable range : MapRange (list Issue).

Definition fetchClosedLastWeekIssues : outcome (list Issue) :=
  let lastWeekDay := AddDate now 0 0 (-7) in
  let closedState := "closed" in
  let searchOpts :=
    {| opt_Scope := None;
       opt_AssigneeUsername := GitlabUsername config;
       opt_UpdatedAfter := Some lastWeekDay;
       opt_DueDate := None;
       opt_State := closedState |} in
  let r := ListIssues gitlabClient searchOpts in
  if err r || negb (String.eqb (Status (response r)) "200 OK") then Fatal
  else
    forDelete (fun issue => negb (MovedToID issue =? 0)%Z) 0 0 (items r).

Definition fetchOpenIssuesOnDueDate (dueDate : string) : outcome (list Issue) :=
  let openedState := "opened" in
  let searchOpts :=
    {| opt_Scope := None;
       opt_AssigneeUsername := GitlabUsername config;
       opt_UpdatedAfter := None;
       opt_DueDate := Some dueDate;
       opt_State := openedState |} in
  let r := ListIssues gitlabClient searchOpts in
  if err r || negb (StatusCode (response r) =? 200)%Z then Fatal
  else Ok (items r).

Definition fetchToCloseThisWeekIssues : outcome (list Issue) :=
  let issues := [] in
  week ← fetchOpenIssuesOnDueDate "week";
  let issues := issues ++ week in
  overdue ← fetchOpenIssuesOnDueDate "overdue";
  let issues := issues ++ overdue in
  Ok issues.

(** The inner loop of [formatGroupedIssues], over [issueGroup]. *)
Fixpoint formatIssueGroup (issueStr : string) (issueGroup : list Issue) : string :=
  match issueGroup with
  | [] => issueStr
  | issue :: rest =>
      let issueStr :=
        issueStr +:+ String TAB "* [" +:+ Title issue +:+ "]("
                 +:+ WebURL issue +:+ ")" +:+ CRLF in
      let issueStr :=
        match DueDate issue with
        | Some dueDate =>
            issueStr +:+ String TAB (String TAB "* Due date: ")
                     +:+ ISOTime_String dueDate +:+ CRLF
        | None => issueStr
        end in
      formatIssueGroup issueStr rest
  end.

(** The outer loop of [formatGroupedIssues], over the entries of the map
    in the order they are visited. *)
Fixpoint formatGroups (projectNameMap : gmap Z string) (issuesStrs : list string)
    (visited : list (Z * list Issue)) : list string :=
  match visited with
  | [] => issuesStrs
  | (group, issueGroup) :: rest =>
      if (length issueGroup =? 0)%nat
      then formatGroups projectNameMap issuesStrs rest
      else
        let issueStr :=
          "* " +:+ default EmptyString (projectNameMap !! group) +:+ ":" +:+ CRLF in
        let issueStr := formatIssueGroup issueStr issueGroup in
        formatGroups projectNameMap (issuesStrs ++ [issueStr]) rest
  end.

Definition formatGroupedIssues (groupedIssues : gmap Z (list Issue)) : outcome string :=
  let issuesStrs := [] in
  projectNameMap ← fetchProjectNameMap gitlabClient now;
  let issuesStrs := formatGroups projectNameMap issuesStrs (visit range groupedIssues) in
  Ok (strings_Join issuesStrs EmptyString).

Definition formatClosedLastWeekIssues : outcome string :=
  issues ← fetchClosedLastWeekIssues;
  if (length issues =? 0)%nat then Ok EmptyString
  else
    let groupedIssues := groupIssuesByProject issues in
    if (size groupedIssues =? 0)%nat then Ok EmptyString
    else
      let title := "Issues closed last week:" +:+ CRLF +:+ CRLF in
      body ← formatGroupedIssues groupedIssues;
      Ok (title +:+ body +:+ CRLF).

Definition formatToCloseThisWeekIssues : outcome string :=
  issues ← fetchToCloseThisWeekIssues;
  if (length issues =? 0)%nat then Ok EmptyString
  else
    let groupedIssues := groupIssuesByProject issues in
    if (size groupedIssues =? 0)%nat then Ok EmptyString
    else
      let title := "Issues to close this week:" +:+ CRLF +:+ CRLF in
      body ← formatGroupedIssues groupedIssues;
      Ok (title +:+ body +:+ CRLF).

(** [sendEmail] hands [message] to the transport; the value returned here
    is the message that was sent. *)
Definition sendEmail (SendMail : Transport) (msgBody : string) : outcome string :=
  let host := SMTPHost config in
  let toStr := RecipientEmail config in
  let to := [toStr] in
  let now := Format now "2006-01-01" in
  let message :=
    "To: " +:+ toStr +:+ CRLF
    +:+ "Subject: Weekly report (" +:+ now +:+ ")" +:+ CRLF
    +:+ CRLF +:+ msgBody +:+ CRLF in
  if SendMail (host +:+ ":" +:+ SMTPPort config) (SMTPUsername config) to message
  then Fatal
  else Ok message.

(** [main], from the point where the configuration file has been read
    into [config] ([readConfig] then returns [checkConfigFields(&config)])
    and the client has been constructed. *)
Definition main (SendMail : Transport) : outcome string :=
  err ← checkConfigFields config;
  match err with
  | Some _ => Fatal
  | None =>
      closedLastWeekIssuesStr ← formatClosedLastWeekIssues;
      toCloseWeekIssuesStr ← formatToCloseThisWeekIssues;
      sendEmail SendMail (closedLastWeekIssuesStr +:+ toCloseWeekIssuesStr)
  end.

End Program.
End Weekly.

(* ===================================================================== *)
(** * Part V: the revision with the [-weeks] flag                         *)
(* ===================================================================== *)

Module Weeks.
Section Program.
Variable config : Config.
Variable gitlabClient : Client.
Variable now : Time.
Variable range : MapRange (list Issue).

Definition fetchClosedLastWeeksIssues (weeks : Z) : outcome (list Issue) :=
  let nowTime := now in
  let days := (weeks * -7)%Z in
  let searchOpts :=
    {| opt_Scope := Some "assigned_to_me";
       opt_AssigneeUsername := GitlabUsername config;
       opt_UpdatedAfter := Some (AddDate nowTime 0 0 days);
       opt_DueDate := None;
       opt_State := "closed" |} in
  let r := ListIssues gitlabClient searchOpts in
  if err r || negb (String.eqb (Status (response r)) "200 OK") then Fatal
  else
    forDelete (fun issue => negb (MovedToID issue =? 0)%Z) 1 0 (items r).

Definition fetchOpenIssuesOnDueDate (dueDate : string) : outcome (list Issue) :=
  let searchOpts :=
    {| opt_Scope := Some "assigned_to_me";
       opt_AssigneeUsername := GitlabUsername config;
       opt_UpdatedAfter := None;
       opt_DueDate := Some dueDate;
       opt_State := "opened" |} in
  let r := ListIssues gitlabClient searchOpts in
  if err r || negb (StatusCode (response r) =? 200)%Z then Fatal
  else Ok (items r).

Definition fetchToCloseThisWeekIssues : outcome (list Issue) :=
  let issues := [] in
  week ← fetchOpenIssuesOnDueDate "week";
  let issues := issues ++ week in
  overdue ← fetchOpenIssuesOnDueDate "overdue";
  let issues := issues ++ overdue in
  Ok issues.

Definition slugify (inputString : string) : string :=
  let cleanedString := ReplaceAllNonAlnum inputString in
  ToLower cleanedString.

(** [&issue.Assignee.ID] dereferences [issue.Assignee], a pointer that is
    nil for an issue nobody is assigned to. *)
Definition fetchIssueLastMergeRequest (issue : Issue) : outcome (option MergeRequest) :=
  match Assignee issue with
  | None => Panic
  | Some assignee =>
      let listMergeRequestOptions :=
        {| opt_AuthorID := AssigneeID assignee; opt_MRState := "opened" |} in
      let r := ListMergeRequests gitlabClient listMergeRequestOptions in
      if err r || negb (StatusCode (response r) =? 200)%Z then Fatal
      else
        let issueTitleCleaned := slugify (Title issue) in
        mergeRequests ←
          forDelete
            (fun mergeRequest =>
               let sourceBranchCleaned := slugify (SourceBranch mergeRequest) in
               negb (String.eqb sourceBranchCleaned issueTitleCleaned))
            1 0 (items r);
        if (length mergeRequests =? 0)%nat then Ok None
        else
          match mergeRequests !! (length mergeRequests - 1) with
          | Some mergeRequest => Ok (Some mergeRequest)
          | None => Panic
          end
  end.

Fixpoint formatIssueGroup (issueStr : string) (issueGroup : list Issue)
  : outcome string :=
  match issueGroup with
  | [] => Ok issueStr
  | issue :: rest =>
      let issueStr :=
        issueStr +:+ "  * [" +:+ Title issue +:+ "]("
                 +:+ WebURL issue +:+ ")" +:+ CRLF in
      let issueStr :=
        match DueDate issue with
        | Some dueDate =>
            issueStr +:+ "    * Due date: " +:+ ISOTime_String dueDate +:+ CRLF
        | None => issueStr
        end in
      mergeRequest ← fetchIssueLastMergeRequest issue;
      let issueStr :=
        match mergeRequest with
        | Some mergeRequest =>
            issueStr +:+ "    * Merge request: [" +:+ MR_Title mergeRequest
                     +:+ "](" +:+ MR_WebURL mergeRequest +:+ ")" +:+ CRLF
        | None => issueStr
        end in
      formatIssueGroup issueStr rest
  end.

Fixpoint formatGroups (projectNameMap : gmap Z string) (issuesStrs : list string)
    (visited : list (Z * list Issue)) : outcome (list string) :=
  match visited with
  | [] => Ok issuesStrs
  | (group, issueGroup) :: rest =>
      if (length issueGroup =? 0)%nat
      then formatGroups projectNameMap issuesStrs rest
      else
        let issueStr :=
          "#### " +:+ default EmptyString (projectNameMap !! group) +:+ ":" +:+ CRLF in
        issueStr ← formatIssueGroup issueStr issueGroup;
        formatGroups projectNameMap (issuesStrs ++ [issueStr]) rest
  end.

Definition formatGroupedIssues (groupedIssues : gmap Z (list Issue)) : outcome string :=
  let issuesStrs := [] in
  projectNameMap ← fetchProjectNameMap gitlabClient now;
  issuesStrs ← formatGroups projectNameMap issuesStrs (visit range groupedIssues);
  Ok (strings_Join issuesStrs EmptyString).

Definition formatClosedLastWeeksIssues (weeks : Z) : outcome string :=
  issues ← fetchClosedLastWeeksIssues weeks;
  if (length issues =? 0)%nat then Ok EmptyString
  else
    let groupedIssues := groupIssuesByProject issues in
    if (size groupedIssues =? 0)%nat then Ok EmptyString
    else
      let weeksStr := "last week" in
      let weeksStr :=
        if (1 <? weeks)%Z
        then "in the last " +:+ Itoa (Z.to_nat weeks) +:+ " weeks"
        else weeksStr in
      let title := "### Issues closed " +:+ weeksStr +:+ ":" +:+ CRLF +:+ CRLF in
      body ← formatGroupedIssues groupedIssues;
      Ok (title +:+ body +:+ CRLF).

Definition formatToCloseThisWeekIssues : outcome string :=
  issues ← fetchToCloseThisWeekIssues;
  if (length issues =? 0)%nat then Ok EmptyString
  else
    let groupedIssues := groupIssuesByProject issues in
    if (size groupedIssues =? 0)%nat then Ok EmptyString
    else
      let title := "### Issues to close this week:" +:+ CRLF +:+ CRLF in
      body ← formatGroupedIssues groupedIssues;
      Ok (title +:+ body +:+ CRLF).

Definition sendEmail (SendMail : Transport) (msgBody : string) : outcome string :=
  let host := SMTPHost config in
  let toStr := RecipientEmail config in
  let to := [toStr] in
  let nowTime := now in
  let nowString := Format nowTime "2006-01-02" in
  let message :=
    "To: " +:+ toStr +:+ CRLF
    +:+ "Subject: Weekly report (" +:+ nowString +:+ ")" +:+ CRLF
    +:+ CRLF +:+ msgBody +:+ CRLF in
  if SendMail (host +:+ ":" +:+ SMTPPort config) (SMTPUsername config) to message
  then Fatal
  else Ok message.

(** The reading loop of [readAndFormatMainDifficulties].  [stdin] holds
    the lines that [ReadString] returns one after the other, each with its
    terminating newline; when it is exhausted [ReadString] returns an
    error.  The lines left unread are returned with the result. *)
Fixpoint readDifficulties (difficulties : string) (stdin : list string)
  : outcome (string * list string) :=
  match stdin with
  | [] => Fatal
  | difficulty :: rest =>
      if TrimSpace_empty difficulty then Ok (difficulties, rest)
      else readDifficulties (difficulties +:+ "  * " +:+ difficulty) rest
  end.

Definition readAndFormatMainDifficulties (stdin : list string)
  : outcome (string * list string) :=
  let mainDifficultiesStr := "### Main difficulties:" in
  let difficulties := EmptyString in
  '(difficulties, rest) ← readDifficulties difficulties stdin;
  if TrimSpace_empty difficulties then Ok (EmptyString, rest)
  else Ok (mainDifficultiesStr +:+ CRLF +:+ difficulties +:+ CRLF, rest).

(** [main], from the point where the configuration file has been read
    into [config] and the client has been constructed. *)
Definition main (weeks : Z) (stdin : list string) (SendMail : Transport)
  : outcome string :=
  err ← checkConfigFields config;
  match err with
  | Some _ => Fatal
  | None =>
      closedLastWeeksIssuesStr ← formatClosedLastWeeksIssues weeks;
      toCloseWeekIssuesStr ← formatToCloseThisWeekIssues;
      '(mainDifficulties, _) ← readAndFormatMainDifficulties stdin;
      sendEmail SendMail
        (closedLastWeeksIssuesStr +:+ toCloseWeekIssuesStr +:+ mainDifficulties)
  end.

End Program.
End Weeks.


(* ===================================================================== *)
(** * Part VI: notions of the specification                               *)
(* ===================================================================== *)

(** The closed-issue filter as the specification words it: keep the issues
    whose moved-to identifier is zero. *)
Definition closedFilter_spec (issues : list Issue) : list Issue :=
  filter (fun issue => MovedToID issue = 0%Z) issues.

(** [findLatest] as the specification words it: the last candidate whose
    slugified source branch is the slugified issue title, if any. *)
Definition findLatest_spec (issue : Issue) (candidates : list MergeRequest)
  : option MergeRequest :=
  last (filter (fun mergeRequest =>
                  Weeks.slugify (SourceBranch mergeRequest)
                  = Weeks.slugify (Title issue))
               candidates).

(** The run date as the specification words it: four-digit year, two-digit
    month, two-digit day of month, separated by hyphens. *)
Definition isoDate_spec (t : Time) : string :=
  appendInt (Year t) 4 +:+ "-" +:+ appendInt (Month t) 2 +:+ "-"
  +:+ appendInt (Day t) 2.

(** [strings.Contains(s, substr)] *)
Definition Contains (s substr : string) : bool :=
  match String.index 0 substr s with
  | Some _ => true
  | None => false
  end.

(** The issues of one project, in the order supplied. *)
Definition groupOf (pid : Z) (issues : list Issue) : list Issue :=
  filter (fun issue => ProjectID issue = pid) issues.

(** The sum of the group lengths of a grouping. *)
Definition groupedCount (groupedIssues : gmap Z (list Issue)) : nat :=
  map_fold (fun _ issueGroup n => length issueGroup + n) 0 groupedIssues.

(** What the deleting loop computes when [w = 1]: the element that moves
    into a freed slot is stepped over without being examined. *)
Fixpoint skipScan {A} (del : A -> bool) (s : list A) : list A :=
  match s with
  | [] => []
  | x :: rest =>
      if del x then
        match rest with
        | [] => []
        | y :: rest' => y :: skipScan del rest'
        end
      else x :: skipScan del rest
  end.

(** ** Lines of a text *)

Definition begins_with_blank_line (text : string) : bool :=
  String.prefix CRLF text || String.prefix (String LF EmptyString) text.

(** The number of line terminators ([CR LF] or a bare [LF]) at the end of
    a text, read from its last byte backwards. *)
Fixpoint trailing_newlines (reversed : list ascii) : nat :=
  match reversed with
  | [] => 0
  | c :: before =>
      if Ascii.eqb c LF then
        match before with
        | [] => 1
        | c' :: before' =>
            if Ascii.eqb c' CR then S (trailing_newlines before')
            else S (trailing_newlines before)
        end
      else 0
  end.

(** The first terminator ends the last line; each further one is a blank
    line. *)
Definition trailing_blank_lines (text : string) : nat :=
  pred (trailing_newlines (reverse (list_ascii_of_string text))).

(** A text whose last line is not blank: it ends in a byte that is not a
    line terminator, followed by [CR LF]. *)
Definition ends_with_text_line (text : string) : Prop :=
  exists before c,
    text = before +:+ String c CRLF /\ Ascii.eqb c LF = false.

(** The shape the specification asks of a rendered section. *)
Definition section_shape (issues : list Issue) (result : outcome string) : Prop :=
  (groupIssuesByProject issues = ∅ -> result = Ok EmptyString)
  /\ (groupIssuesByProject issues <> ∅ ->
      forall text, result = Ok text ->
        begins_with_blank_line text = false /\ trailing_blank_lines text = 1).

(** ** The sub-block of one project *)

Definition Weekly_block (projectNameMap : gmap Z string)
    (entry : Z * list Issue) : option string :=
  if (length entry.2 =? 0)%nat then None
  else Some (Weekly.formatIssueGroup
               ("* " +:+ default EmptyString (projectNameMap !! entry.1)
                     +:+ ":" +:+ CRLF)
               entry.2).

Definition Weeks_block (gitlabClient : Client) (projectNameMap : gmap Z string)
    (entry : Z * list Issue) : outcome (option string) :=
  if (length entry.2 =? 0)%nat then Ok None
  else
    issueStr ← Weeks.formatIssueGroup gitlabClient
                 ("#### " +:+ default EmptyString (projectNameMap !! entry.1)
                          +:+ ":" +:+ CRLF)
                 entry.2;
    Ok (Some issueStr).

(** The sub-blocks of the entries visited, in that order; the first
    failure ends the rendering. *)
Fixpoint Weeks_blocks (gitlabClient : Client) (projectNameMap : gmap Z string)
    (visited : list (Z * list Issue)) : outcome (list string) :=
  match visited with
  | [] => Ok []
  | entry :: rest =>
      block ← Weeks_block gitlabClient projectNameMap entry;
      blocks ← Weeks_blocks gitlabClient projectNameMap rest;
      Ok (option_list block ++ blocks)
  end.

(** ** Notions used to describe the behaviour of the code *)

(** The requests the program sends. *)
Definition Weekly_closedQuery (config : Config) (now : Time) : ListIssuesOptions :=
  {| opt_Scope := None;
     opt_AssigneeUsername := GitlabUsername config;
     opt_UpdatedAfter := Some (AddDate now 0 0 (-7));
     opt_DueDate := None;
     opt_State := "closed" |}.

Definition Weeks_closedQuery (config : Config) (now : Time) (weeks : Z)
  : ListIssuesOptions :=
  {| opt_Scope := Some "assigned_to_me";
     opt_AssigneeUsername := GitlabUsername config;
     opt_UpdatedAfter := Some (AddDate now 0 0 (weeks * -7));
     opt_DueDate := None;
     opt_State := "closed" |}.

Definition mergeRequestQuery (assignee : IssueAssignee) : ListMergeRequestsOptions :=
  {| opt_AuthorID := AssigneeID assignee; opt_MRState := "opened" |}.

Definition projectQuery (now : Time) : ListProjectsOptions :=
  {| opt_Membership := true; opt_LastActivityAfter := AddDate now 0 0 (-7) |}.

(** The test of the closed-issue loop, and the test of the candidate loop. *)
Definition moved (issue : Issue) : bool := negb (MovedToID issue =? 0)%Z.

Definition unmatched (issue : Issue) (mergeRequest : MergeRequest) : bool :=
  negb (String.eqb (Weeks.slugify (SourceBranch mergeRequest))
                   (Weeks.slugify (Title issue))).

(** No two neighbours in [s] are both deleted by [del]. *)
Fixpoint noAdjacent {A} (del : A -> bool) (s : list A) : bool :=
  match s with
  | [] => true
  | x :: rest =>
      match rest with
      | [] => true
      | y :: _ => negb (del x && del y)
      end && noAdjacent del rest
  end.

(** [part] occurs in [text]. *)
Definition occurs_in (part text : string) : Prop :=
  exists before after, text = before +:+ part +:+ after.

(** The lines [weeports.go] writes for one issue. *)
Definition Weekly_issueText (issue : Issue) : string :=
  String TAB "* [" +:+ Title issue +:+ "](" +:+ WebURL issue +:+ ")" +:+ CRLF
  +:+ match DueDate issue with
      | Some dueDate =>
          String TAB (String TAB "* Due date: ")
          +:+ ISOTime_String dueDate +:+ CRLF
      | None => EmptyString
      end.

(** The lines the [-weeks] revision writes for one issue before the line of
    its merge request. *)
Definition Weeks_issueText (issue : Issue) : string :=
  "  * [" +:+ Title issue +:+ "](" +:+ WebURL issue +:+ ")" +:+ CRLF
  +:+ match DueDate issue with
      | Some dueDate =>
          "    * Due date: " +:+ ISOTime_String dueDate +:+ CRLF
      | None => EmptyString
      end.

(** Reading a decimal numeral. *)
Fixpoint atoiFrom (acc : nat) (s : string) : nat :=
  match s with
  | EmptyString => acc
  | String c rest => atoiFrom (acc * 10 + (nat_of_ascii c - 48)) rest
  end.

Definition atoi (s : string) : nat := atoiFrom 0 s.

(** Small ASCII letters and digits. *)
Definition isLowerAlnum (c : ascii) : bool :=
  let n := nat_of_ascii c in
  ((97 <=? n) && (n <=? 122)) || ((48 <=? n) && (n <=? 57)).

Fixpoint allChars (p : ascii -> bool) (s : string) : bool :=
  match s with
  | EmptyString => true
  | String c rest => p c && allChars p rest
  end.

(** The bullets [readAndFormatMainDifficulties] writes for the lines read. *)
Fixpoint bullets (lines : list string) : string :=
  match lines with
  | [] => EmptyString
  | line :: rest => "  * " +:+ line +:+ bullets rest
  end.

(** The head of the message [sendEmail] builds. *)
Definition messageHead (config : Config) (date : string) : string :=
  "To: " +:+ RecipientEmail config +:+ CRLF
  +:+ "Subject: Weekly report (" +:+ date +:+ ")" +:+ CRLF +:+ CRLF.

(** A configuration with every field filled in. *)
Definition complete (config : Config) : bool :=
  negb (String.eqb (GitlabUrl config) EmptyString)
  && negb (String.eqb (GitlabToken config) EmptyString)
  && negb (String.eqb (GitlabUsername config) EmptyString)
  && negb (String.eqb (SMTPUsername config) EmptyString)
  && negb (String.eqb (SMTPPassword config) EmptyString)
  && negb (String.eqb (SMTPHost config) EmptyString)
  && negb (String.eqb (SMTPPort config) EmptyString)
  && negb (String.eqb (RecipientEmail config) EmptyString).

(** The line the [-weeks] revision writes for the merge request found. *)
Definition Weeks_mergeRequestText (mergeRequest : option MergeRequest) : string :=
  match mergeRequest with
  | Some mergeRequest =>
      "    * Merge request: [" +:+ MR_Title mergeRequest
      +:+ "](" +:+ MR_WebURL mergeRequest +:+ ")" +:+ CRLF
  | None => EmptyString
  end.

(* ===================================================================== *)
(** * Part VII: sample data                                               *)
(* ===================================================================== *)

Module Sample.

Definition ok200 : Response := {| Status := "200 OK"; StatusCode := 200 |}.

(** A service that answers every request with the given records. *)
Definition service (issues : list Issue) (projects : list Project)
    (mergeRequests : list MergeRequest) : Client :=
  {| ListIssues := fun _ => {| items := issues; response := ok200; err := false |};
     ListProjects := fun _ => {| items := projects; response := ok200; err := false |};
     ListMergeRequests :=
       fun _ => {| items := mergeRequests; response := ok200; err := false |} |}.

(** A service that answers the two due-date queries differently. *)
Definition dueService (week overdue : list Issue) : Client :=
  {| ListIssues := fun opts =>
       {| items := match opt_DueDate opts with
                   | Some dueDate => if String.eqb dueDate "week" then week else overdue
                   | None => []
                   end;
          response := ok200; err := false |};
     ListProjects := fun _ => {| items := []; response := ok200; err := false |};
     ListMergeRequests := fun _ => {| items := []; response := ok200; err := false |} |}.

Definition config : Config :=
  {| GitlabUrl := "https://git.domain.com";
     GitlabToken := "gitlab-secret-token";
     GitlabUsername := "gitlab-username";
     SMTPUsername := "user@domain.com";
     SMTPPassword := "email-password";
     SMTPHost := "smtp.domain.com";
     SMTPPort := "587";
     RecipientEmail := "manager@domain.com" |}.

Definition runDate : Time := {| Year := 2024; Month := 3; Day := 15 |}.

Definition issue (id project movedTo : Z) (title : string) : Issue :=
  {| ID := id; Title := title; ProjectID := project;
     Assignee := Some {| AssigneeID := 7 |};
     DueDate := None;
     WebURL := "https://git.domain.com/i";
     MovedToID := movedTo |}.

Definition unassigned (id project : Z) (title : string) : Issue :=
  {| ID := id; Title := title; ProjectID := project;
     Assignee := None;
     DueDate := None;
     WebURL := "https://git.domain.com/i";
     MovedToID := 0 |}.

Definition mergeRequest (id : Z) (branch : string) : MergeRequest :=
  {| MR_ID := id; MR_Title := "MR"; SourceBranch := branch;
     MR_WebURL := "https://git.domain.com/mr" |}.

Definition sent : Transport := fun _ _ _ _ => false.

(** Two iteration orders of a map: by key, and the reverse. *)
Definition ascending : MapRange (list Issue) :=
  {| visit := map_to_list; visit_perm := fun m => reflexivity _ |}.

Definition descending : MapRange (list Issue) :=
  {| visit := fun m => reverse (map_to_list m);
     visit_perm := fun m => reverse_Permutation _ |}.

End Sample.


(* ===================================================================== *)
(** * Part VIII: properties                                               *)
(* ===================================================================== *)

(** ** The deleting loop *)

(** The element under the index, and what the loop decided about it. *)
Ltac loop_step :=
  match goal with
  | IH : _ = _ -> forDelete _ _ _ _ = _ |- _ => rewrite IH by reflexivity
  end;
  match goal with
  | Hx : ?s !! ?i = Some ?x, Hd : ?del ?x = _ |- _ =>
      try (rewrite (drop_S _ _ _ Hx); simpl; rewrite Hd);
      try rewrite (take_S_r _ _ _ Hx)
  end.

Ltac loop_absurd :=
  match goal with
  | Hlt : ?i < length ?s, Hx : ?s !! ?i = None |- _ =>
      destruct (lookup_lt_is_Some_2 _ _ Hlt); congruence
  | _ => lia
  end.

Lemma forDelete_keep_all {A} (del : A -> bool) (i : nat) (s : list A) :
  forDelete del 0 i s = Ok s.
Proof.
  remember 0 as w eqn:Hw. revert Hw.
  funelim (forDelete del w i s); intros ->; try reflexivity; try loop_absurd.
  - now loop_step.
  - loop_step. unfold slices_Delete. by rewrite Nat.add_0_r, take_drop.
Qed.

Lemma forDelete_skipScan {A} (del : A -> bool) (i : nat) (s : list A) :
  forDelete del 1 i s = Ok (take i s ++ skipScan del (drop i s)).
Proof.
  remember 1 as w eqn:Hw. revert Hw.
  funelim (forDelete del w i s); intros ->; try loop_absurd.
  - by rewrite take_ge, drop_ge, app_nil_r by lia.
  - loop_step. by rewrite <- app_assoc.
  - loop_step. f_equal.
    unfold slices_Delete. replace (i + 1) with (S i) by lia.
    assert (Hlen : length (take i s) = i) by (rewrite length_take; lia).
    destruct (drop (S i) s) as [|y rest'].
    + rewrite app_nil_r, take_ge, drop_ge by lia. by rewrite app_nil_r.
    + rewrite take_app_ge, drop_app_ge by lia. rewrite Hlen.
      replace (S i - i) with 1 by lia. simpl. rewrite drop_0.
      by rewrite <- app_assoc.
Qed.

(** ** Characters *)

Ltac each_byte c := destruct c as [[] [] [] [] [] [] [] []]; reflexivity.

Lemma toLower_idem c : toLower (toLower c) = toLower c.
Proof. each_byte c. Qed.

Lemma isAlnum_toLower c : isAlnum (toLower c) = isAlnum c.
Proof. each_byte c. Qed.

Lemma ReplaceAllNonAlnum_ToLower s :
  ReplaceAllNonAlnum (ToLower s) = ToLower (ReplaceAllNonAlnum s).
Proof.
  induction s as [|c s IH]; [done|]. simpl.
  rewrite isAlnum_toLower. destruct (isAlnum c); simpl; by rewrite IH.
Qed.

Lemma ReplaceAllNonAlnum_idem s :
  ReplaceAllNonAlnum (ReplaceAllNonAlnum s) = ReplaceAllNonAlnum s.
Proof.
  induction s as [|c s IH]; [done|]. simpl.
  destruct (isAlnum c) eqn:Hc; simpl; [rewrite Hc|]; by rewrite IH.
Qed.

Lemma ToLower_idem s : ToLower (ToLower s) = ToLower s.
Proof.
  induction s as [|c s IH]; [done|]. simpl. by rewrite toLower_idem, IH.
Qed.

(** C4: [slugify] is idempotent, and it is insensitive to case and to
    punctuation: turning the ASCII capitals of its argument into small
    letters, or removing the characters that are not ASCII letters or digits
    from it, does not change the result; in particular
    [slugify "Fix Bug-42!"] and [slugify "fixbug42"] are both ["fixbug42"]. *)
Theorem slugify_idempotent :
  (forall x, Weeks.slugify (Weeks.slugify x) = Weeks.slugify x)
  /\ (forall x, Weeks.slugify (ToLower x) = Weeks.slugify x)
  /\ (forall x, Weeks.slugify (ReplaceAllNonAlnum x) = Weeks.slugify x)
  /\ Weeks.slugify "Fix Bug-42!" = Weeks.slugify "fixbug42"
  /\ Weeks.slugify "Fix Bug-42!" = "fixbug42".
Proof.
  unfold Weeks.slugify. repeat split.
  - intros x.
    by rewrite ReplaceAllNonAlnum_ToLower, ReplaceAllNonAlnum_idem, ToLower_idem.
  - intros x. by rewrite ReplaceAllNonAlnum_ToLower, ToLower_idem.
  - intros x. by rewrite ReplaceAllNonAlnum_idem.
Qed.

(** ** Strings *)

Lemma append_nil b : EmptyString +:+ b = b.
Proof. reflexivity. Qed.

Lemma append_cons c a b : String c a +:+ b = String c (a +:+ b).
Proof. reflexivity. Qed.

Lemma append_assoc a b c : (a +:+ b) +:+ c = a +:+ (b +:+ c).
Proof.
  induction a as [|x a IH]; [done|]. by rewrite !append_cons, IH.
Qed.

Lemma append_empty_r a : a +:+ EmptyString = a.
Proof.
  induction a as [|x a IH]; [done|]. by rewrite append_cons, IH.
Qed.

Lemma chars_append a b :
  list_ascii_of_string (a +:+ b) = list_ascii_of_string a ++ list_ascii_of_string b.
Proof.
  induction a as [|x a IH]; [done|]. rewrite append_cons. simpl. by rewrite IH.
Qed.

(** ** Decimal printing *)

Lemma digit_not_LF n : Ascii.eqb (digit n) LF = false.
Proof.
  unfold digit. pose proof (Nat.mod_upper_bound n 10 ltac:(lia)) as Hlt.
  destruct (n mod 10) as [|k]; [reflexivity|].
  do 9 (destruct k as [|k]; [reflexivity|]). lia.
Qed.

Lemma decimal_last fuel n acc :
  exists before, decimal (S fuel) n acc = before +:+ String (digit n) acc.
Proof.
  revert n acc. induction fuel as [|fuel IH]; intros n acc; simpl.
  - exists EmptyString. by destruct (n <? 10).
  - destruct (n <? 10); [by exists EmptyString|].
    destruct (IH (n / 10) (String (digit n) acc)) as [before Hb].
    exists (before +:+ String (digit (n / 10)) EmptyString).
    rewrite append_assoc. exact Hb.
Qed.

Lemma appendInt_last x width :
  exists before, appendInt x width = before +:+ String (digit x) EmptyString.
Proof.
  unfold appendInt, Itoa. destruct (decimal_last x x EmptyString) as [before ->].
  eexists. by rewrite <- append_assoc.
Qed.

Lemma ISOTime_String_iso t : ISOTime_String t = isoDate_spec t.
Proof.
  unfold ISOTime_String, Format, isoDate_spec. simpl.
  by rewrite append_empty_r.
Qed.

(** ** Lines *)

Example trailing_blank_lines_none :
  trailing_blank_lines ("a" +:+ CRLF) = 0.
Proof. reflexivity. Qed.

Example trailing_blank_lines_one :
  trailing_blank_lines ("a" +:+ CRLF +:+ CRLF) = 1.
Proof. reflexivity. Qed.

Example trailing_blank_lines_two :
  trailing_blank_lines ("a" +:+ CRLF +:+ CRLF +:+ CRLF) = 2.
Proof. reflexivity. Qed.

Example begins_with_blank_line_yes :
  begins_with_blank_line (CRLF +:+ "a") = true.
Proof. reflexivity. Qed.

Lemma ends_with_text_line_append a b :
  ends_with_text_line b -> ends_with_text_line (a +:+ b).
Proof.
  intros (before & c & -> & Hc). exists (a +:+ before), c.
  by rewrite append_assoc.
Qed.

Lemma ends_with_text_line_char c :
  Ascii.eqb c LF = false -> ends_with_text_line (String c CRLF).
Proof. intros Hc. by exists EmptyString, c. Qed.

Lemma ends_with_text_line_date t :
  ends_with_text_line (ISOTime_String t +:+ CRLF).
Proof.
  rewrite ISOTime_String_iso. unfold isoDate_spec.
  destruct (appendInt_last (Day t) 2) as [before ->].
  rewrite !append_assoc. do 5 apply ends_with_text_line_append.
  apply ends_with_text_line_char, digit_not_LF.
Qed.

Lemma trailing_blank_lines_section title body :
  ends_with_text_line body ->
  trailing_blank_lines (title +:+ body +:+ CRLF) = 1.
Proof.
  intros (before & c & -> & Hc). unfold trailing_blank_lines.
  rewrite !chars_append. simpl. rewrite !reverse_app.
  change (reverse [CR; LF]) with [LF; CR].
  change (reverse [c; CR; LF]) with [LF; CR; c].
  rewrite <- !app_assoc. simpl. by rewrite Hc.
Qed.

Lemma strings_Join_ends (elems : list string) :
  elems <> [] -> Forall ends_with_text_line elems ->
  ends_with_text_line (strings_Join elems EmptyString).
Proof.
  unfold strings_Join.
  induction elems as [|x elems IH]; intros Hne Hall; [done|].
  apply Forall_cons in Hall as [Hx Hall]. simpl.
  destruct elems as [|y elems]; [done|].
  apply ends_with_text_line_append. simpl (EmptyString +:+ _).
  by apply IH.
Qed.

(** ** Grouping *)

Lemma groupIssuesByProject_snoc issues issue :
  groupIssuesByProject (issues ++ [issue])
  = <[ProjectID issue :=
        default [] (groupIssuesByProject issues !! ProjectID issue) ++ [issue]]>
      (groupIssuesByProject issues).
Proof. unfold groupIssuesByProject. by rewrite foldl_snoc. Qed.

Lemma groupIssuesByProject_lookup issues pid :
  groupIssuesByProject issues !! pid
  = match groupOf pid issues with
    | [] => None
    | issueGroup => Some issueGroup
    end.
Proof.
  unfold groupOf.
  induction issues as [|issue issues IH] using rev_ind; [done|].
  rewrite groupIssuesByProject_snoc, filter_app.
  destruct (decide (ProjectID issue = pid)) as [Heq|Hne].
  - rewrite Heq, lookup_insert_eq, IH. rewrite filter_cons_True by done.
    by destruct (filter _ issues).
  - rewrite lookup_insert_ne by done. rewrite IH.
    rewrite filter_cons_False by done. by rewrite filter_nil, app_nil_r.
Qed.

Lemma groupIssuesByProject_nonempty issues pid issueGroup :
  groupIssuesByProject issues !! pid = Some issueGroup -> issueGroup <> [].
Proof.
  rewrite groupIssuesByProject_lookup. destruct (groupOf pid issues); congruence.
Qed.

Lemma groupIssuesByProject_empty issues :
  groupIssuesByProject issues = ∅ <-> issues = [].
Proof.
  split; [|by intros ->].
  destruct issues as [|issue issues]; [done|]. intros Hm.
  pose proof (groupIssuesByProject_lookup (issue :: issues) (ProjectID issue)) as Hl.
  rewrite Hm, lookup_empty in Hl. unfold groupOf in Hl.
  rewrite filter_cons_True in Hl by done. done.
Qed.

Lemma groupedCount_insert (m : gmap Z (list Issue)) pid issueGroup :
  groupedCount (<[pid := issueGroup]> m)
  = length issueGroup + groupedCount (delete pid m).
Proof.
  unfold groupedCount. rewrite <- insert_delete_eq.
  rewrite map_fold_insert_L; [done| |apply lookup_delete_eq].
  intros; lia.
Qed.

Lemma groupedCount_lookup (m : gmap Z (list Issue)) pid :
  groupedCount m
  = length (default [] (m !! pid)) + groupedCount (delete pid m).
Proof.
  destruct (m !! pid) as [issueGroup|] eqn:Hl; simpl.
  - unfold groupedCount. rewrite (map_fold_delete_L _ _ pid issueGroup m); [done| |done].
    intros; lia.
  - by rewrite delete_id.
Qed.

Lemma groupedCount_groupIssuesByProject issues :
  groupedCount (groupIssuesByProject issues) = length issues.
Proof.
  induction issues as [|issue issues IH] using rev_ind; [done|].
  rewrite groupIssuesByProject_snoc, groupedCount_insert, !length_app. simpl.
  rewrite (groupedCount_lookup _ (ProjectID issue)) in IH. lia.
Qed.

(** C3: [groupIssuesByProject] partitions the issues by project identifier.
    The group of a project is the sub-sequence of the issues with that
    identifier, in the order supplied, and is present exactly when that
    sub-sequence is not empty; the group lengths add up to the number of
    issues; no group is empty; every issue is in the group of its own
    project identifier and in no other. *)
Theorem groupIssuesByProject_partition (issues : list Issue) :
  (forall pid,
      groupIssuesByProject issues !! pid
      = match filter (fun issue => ProjectID issue = pid) issues with
        | [] => None
        | issueGroup => Some issueGroup
        end)
  /\ groupedCount (groupIssuesByProject issues) = length issues
  /\ (forall pid issueGroup,
        groupIssuesByProject issues !! pid = Some issueGroup -> issueGroup <> [])
  /\ (forall issue, issue ∈ issues ->
        exists issueGroup,
          groupIssuesByProject issues !! ProjectID issue = Some issueGroup
          /\ issue ∈ issueGroup
          /\ forall pid issueGroup',
               groupIssuesByProject issues !! pid = Some issueGroup' ->
               issue ∈ issueGroup' -> pid = ProjectID issue).
Proof.
  split; [apply groupIssuesByProject_lookup|].
  split; [apply groupedCount_groupIssuesByProject|].
  split; [apply groupIssuesByProject_nonempty|].
  intros issue Hin.
  assert (Hg : issue ∈ groupOf (ProjectID issue) issues)
    by (by apply list_elem_of_filter).
  exists (groupOf (ProjectID issue) issues). split; [|split; [done|]].
  - rewrite groupIssuesByProject_lookup.
    destruct (groupOf (ProjectID issue) issues); [by apply elem_of_nil in Hg|done].
  - intros pid issueGroup'. rewrite groupIssuesByProject_lookup.
    fold (groupOf pid issues).
    destruct (groupOf pid issues) eqn:Hf; [done|]. intros [= <-] Hin'.
    rewrite <- Hf in Hin'. by apply list_elem_of_filter in Hin' as [-> _].
Qed.

(** ** Fetching *)

Lemma Weekly_fetchClosed_unfiltered config gitlabClient now :
  Weekly.fetchClosedLastWeekIssues config gitlabClient now = Fatal
  \/ exists searchOpts,
       Weekly.fetchClosedLastWeekIssues config gitlabClient now
       = Ok (items (ListIssues gitlabClient searchOpts)).
Proof.
  unfold Weekly.fetchClosedLastWeekIssues.
  destruct (_ || _); [by left|right]. eexists. apply forDelete_keep_all.
Qed.

Lemma Weeks_fetchClosed_skipScan config gitlabClient now weeks :
  Weeks.fetchClosedLastWeeksIssues config gitlabClient now weeks = Fatal
  \/ exists searchOpts,
       Weeks.fetchClosedLastWeeksIssues config gitlabClient now weeks
       = Ok (skipScan (fun issue => negb (MovedToID issue =? 0)%Z)
                      (items (ListIssues gitlabClient searchOpts))).
Proof.
  unfold Weeks.fetchClosedLastWeeksIssues.
  destruct (_ || _); [by left|right]. eexists.
  rewrite forDelete_skipScan. by rewrite take_0, drop_0.
Qed.

Lemma last_or_none {A} (l : list A) :
  (if (length l =? 0)%nat then Ok None
   else match l !! (length l - 1) with
        | Some x => Ok (Some x)
        | None => Panic
        end) = Ok (last l).
Proof.
  rewrite last_lookup. destruct l as [|x l]; [done|].
  simpl length. replace (S (length l) - 1) with (length l) by lia.
  simpl Nat.pred. simpl (_ =? _)%nat. 
  destruct (lookup_lt_is_Some_2 (x :: l) (length l)) as [y ->]; [simpl; lia|done].
Qed.

Lemma fetchIssueLastMergeRequest_assigned gitlabClient issue assignee :
  Assignee issue = Some assignee ->
  let r := ListMergeRequests gitlabClient
             {| opt_AuthorID := AssigneeID assignee; opt_MRState := "opened" |} in
  Weeks.fetchIssueLastMergeRequest gitlabClient issue
  = if err r || negb (StatusCode (response r) =? 200)%Z then Fatal
    else Ok (last (skipScan
                     (fun mergeRequest =>
                        negb (String.eqb (Weeks.slugify (SourceBranch mergeRequest))
                                         (Weeks.slugify (Title issue))))
                     (items r))).
Proof.
  intros Ha r. unfold Weeks.fetchIssueLastMergeRequest. rewrite Ha. fold r.
  destruct (_ || _); [done|].
  rewrite forDelete_skipScan, take_0, drop_0. simpl app.
  apply last_or_none.
Qed.

(** C10: [fetchIssueLastMergeRequest] dereferences the assignee of the
    issue before anything else: for an issue without assignee it panics,
    whatever the service answers, and for an issue with an assignee it never
    panics (it returns a result or ends in [log.Fatal]).  The panic is
    reached on a concrete unassigned issue. *)
Theorem fetchIssueLastMergeRequest_needs_assignee gitlabClient issue :
  (Assignee issue = None ->
   Weeks.fetchIssueLastMergeRequest gitlabClient issue = Panic)
  /\ (forall assignee, Assignee issue = Some assignee ->
      Weeks.fetchIssueLastMergeRequest gitlabClient issue <> Panic)
  /\ Weeks.fetchIssueLastMergeRequest
       (Sample.service [] [] []) (Sample.unassigned 1 10 "Fix 42") = Panic.
Proof.
  split; [|split; [|reflexivity]].
  - intros Ha. unfold Weeks.fetchIssueLastMergeRequest. by rewrite Ha.
  - intros assignee Ha.
    rewrite (fetchIssueLastMergeRequest_assigned _ _ _ Ha).
    by destruct (_ || _).
Qed.

Lemma twice_in_app {A} (x : A) (l k : list A) :
  x ∈ l -> x ∈ k ->
  exists i j, i <> j /\ (l ++ k) !! i = Some x /\ (l ++ k) !! j = Some x.
Proof.
  intros [i Hi]%list_elem_of_lookup [j Hj]%list_elem_of_lookup.
  exists i, (length l + j). pose proof (lookup_lt_Some _ _ _ Hi).
  split; [lia|]. split.
  - by apply lookup_app_l_Some.
  - by rewrite lookup_app_r, Nat.add_comm, Nat.add_sub by lia.
Qed.

(** C6: when the two open-issue queries answer [week] and [overdue],
    [fetchToCloseThisWeekIssues] returns [week ++ overdue]; nothing is
    removed, so an issue present in both answers is at two different
    positions of the result.  In both revisions. *)
Theorem fetchToCloseThisWeekIssues_concat config gitlabClient :
  (forall week overdue,
      Weekly.fetchOpenIssuesOnDueDate config gitlabClient "week" = Ok week ->
      Weekly.fetchOpenIssuesOnDueDate config gitlabClient "overdue" = Ok overdue ->
      Weekly.fetchToCloseThisWeekIssues config gitlabClient = Ok (week ++ overdue)
      /\ forall issue, issue ∈ week -> issue ∈ overdue ->
           exists i j, i <> j /\ (week ++ overdue) !! i = Some issue
                       /\ (week ++ overdue) !! j = Some issue)
  /\ (forall week overdue,
      Weeks.fetchOpenIssuesOnDueDate config gitlabClient "week" = Ok week ->
      Weeks.fetchOpenIssuesOnDueDate config gitlabClient "overdue" = Ok overdue ->
      Weeks.fetchToCloseThisWeekIssues config gitlabClient = Ok (week ++ overdue)
      /\ forall issue, issue ∈ week -> issue ∈ overdue ->
           exists i j, i <> j /\ (week ++ overdue) !! i = Some issue
                       /\ (week ++ overdue) !! j = Some issue).
Proof.
  split; intros week overdue Hw Ho.
  - split; [|intros issue; apply twice_in_app].
    unfold Weekly.fetchToCloseThisWeekIssues. by rewrite Hw, Ho.
  - split; [|intros issue; apply twice_in_app].
    unfold Weeks.fetchToCloseThisWeekIssues. by rewrite Hw, Ho.
Qed.

Lemma fetchToCloseThisWeekIssues_concat_witness :
  exists i j, i <> j
    /\ Weekly.fetchToCloseThisWeekIssues Sample.config
         (Sample.dueService [Sample.issue 1 10 0 "Fix 42"]
                            [Sample.issue 1 10 0 "Fix 42"])
       = Ok ([Sample.issue 1 10 0 "Fix 42"] ++ [Sample.issue 1 10 0 "Fix 42"])
    /\ ([Sample.issue 1 10 0 "Fix 42"] ++ [Sample.issue 1 10 0 "Fix 42"]) !! i
       = Some (Sample.issue 1 10 0 "Fix 42")
    /\ ([Sample.issue 1 10 0 "Fix 42"] ++ [Sample.issue 1 10 0 "Fix 42"]) !! j
       = Some (Sample.issue 1 10 0 "Fix 42").
Proof.
  destruct (proj1 (fetchToCloseThisWeekIssues_concat Sample.config
              (Sample.dueService [Sample.issue 1 10 0 "Fix 42"]
                                 [Sample.issue 1 10 0 "Fix 42"]))
              [Sample.issue 1 10 0 "Fix 42"] [Sample.issue 1 10 0 "Fix 42"]
              eq_refl eq_refl) as [Hr Htwice].
  destruct (Htwice (Sample.issue 1 10 0 "Fix 42")) as (i & j & Hij & Hi & Hj);
    [apply list_elem_of_singleton; reflexivity
    |apply list_elem_of_singleton; reflexivity|].
  exists i, j. repeat split; assumption.
Defined.

(** ** The two filters on concrete answers *)

(** C1: on these answers of the closed-issue query the result differs from
    the answer filtered by "moved-to is zero".  In [weeports.go] the loop
    deletes the empty range [i, i) and a moved issue stays; in the [-weeks]
    revision the index steps over the issue that follows a deleted one, and
    the second of two adjacent moved issues stays. *)
Theorem fetchClosed_keeps_moved_issues :
  Weekly.fetchClosedLastWeekIssues Sample.config
    (Sample.service [Sample.issue 1 10 99 "Migrated"] [] []) Sample.runDate
  = Ok [Sample.issue 1 10 99 "Migrated"]
  /\ closedFilter_spec [Sample.issue 1 10 99 "Migrated"] = []
  /\ Weeks.fetchClosedLastWeeksIssues Sample.config
       (Sample.service
          [Sample.issue 1 10 98 "Migrated"; Sample.issue 2 10 99 "Migrated too"]
          [] [])
       Sample.runDate 1
     = Ok [Sample.issue 2 10 99 "Migrated too"]
  /\ closedFilter_spec
       [Sample.issue 1 10 98 "Migrated"; Sample.issue 2 10 99 "Migrated too"]
     = [].
Proof. repeat split; vm_compute; reflexivity. Qed.

(** C2: on these candidate lists [fetchIssueLastMergeRequest] returns a
    merge request whose slugified branch is not the slugified title: with
    two candidates that do not match it returns the second although none
    matches, and with one match followed by two others it returns the last
    candidate instead of the match. *)
Theorem fetchIssueLastMergeRequest_returns_unmatched :
  Weeks.fetchIssueLastMergeRequest
    (Sample.service [] []
       [Sample.mergeRequest 1 "hotfix"; Sample.mergeRequest 2 "release"])
    (Sample.issue 1 10 0 "Fix 42")
  = Ok (Some (Sample.mergeRequest 2 "release"))
  /\ findLatest_spec (Sample.issue 1 10 0 "Fix 42")
       [Sample.mergeRequest 1 "hotfix"; Sample.mergeRequest 2 "release"]
     = None
  /\ Weeks.fetchIssueLastMergeRequest
       (Sample.service [] []
          [Sample.mergeRequest 1 "fix-42"; Sample.mergeRequest 2 "hotfix";
           Sample.mergeRequest 3 "release"])
       (Sample.issue 1 10 0 "Fix 42")
     = Ok (Some (Sample.mergeRequest 3 "release"))
  /\ findLatest_spec (Sample.issue 1 10 0 "Fix 42")
       [Sample.mergeRequest 1 "fix-42"; Sample.mergeRequest 2 "hotfix";
        Sample.mergeRequest 3 "release"]
     = Some (Sample.mergeRequest 1 "fix-42").
Proof. repeat split; vm_compute; reflexivity. Qed.

Example fetchIssueLastMergeRequest_last_of_two :
  Weeks.fetchIssueLastMergeRequest
    (Sample.service [] []
       [Sample.mergeRequest 1 "fix-42"; Sample.mergeRequest 2 "Fix42"])
    (Sample.issue 1 10 0 "Fix 42")
  = Ok (Some (Sample.mergeRequest 2 "Fix42")).
Proof. vm_compute. reflexivity. Qed.

(** ** Rendering: [weeports.go] *)

(** Finds the last line of a text built by appending. *)
Ltac ends_line :=
  first [ assumption
        | apply ends_with_text_line_date
        | by apply ends_with_text_line_char
        | apply ends_with_text_line_append; ends_line ].

Lemma Weekly_formatIssueGroup_ends issueStr issueGroup :
  ends_with_text_line issueStr ->
  ends_with_text_line (Weekly.formatIssueGroup issueStr issueGroup).
Proof.
  revert issueStr. induction issueGroup as [|issue rest IH]; intros issueStr Hs; [done|].
  simpl. apply IH. destruct (DueDate issue) as [dueDate|].
  - ends_line.
  - ends_line.
Qed.

Lemma Weekly_formatGroups_blocks projectNameMap issuesStrs visited :
  Weekly.formatGroups projectNameMap issuesStrs visited
  = issuesStrs ++ omap (Weekly_block projectNameMap) visited.
Proof.
  revert issuesStrs.
  induction visited as [|[group issueGroup] rest IH]; intros issuesStrs.
  - by rewrite app_nil_r.
  - simpl. unfold Weekly_block at 1. simpl.
    destruct (length issueGroup =? 0)%nat; [apply IH|].
    by rewrite IH, <- app_assoc.
Qed.

Lemma Weekly_formatGroupedIssues_blocks gitlabClient now range groupedIssues :
  Weekly.formatGroupedIssues gitlabClient now range groupedIssues
  = (projectNameMap ← fetchProjectNameMap gitlabClient now;
     Ok (strings_Join
           (omap (Weekly_block projectNameMap) (visit range groupedIssues))
           EmptyString)).
Proof.
  unfold Weekly.formatGroupedIssues.
  destruct (fetchProjectNameMap gitlabClient now); [|done..].
  simpl. by rewrite Weekly_formatGroups_blocks.
Qed.

Lemma Weekly_block_ends projectNameMap entry block :
  Weekly_block projectNameMap entry = Some block -> ends_with_text_line block.
Proof.
  unfold Weekly_block. destruct (length entry.2 =? 0)%nat; [done|].
  intros [= <-]. apply Weekly_formatIssueGroup_ends.
  ends_line.
Qed.

(** ** Rendering: the [-weeks] revision *)

Lemma Weeks_formatIssueGroup_ends gitlabClient issueStr issueGroup text :
  ends_with_text_line issueStr ->
  Weeks.formatIssueGroup gitlabClient issueStr issueGroup = Ok text ->
  ends_with_text_line text.
Proof.
  revert issueStr.
  induction issueGroup as [|issue rest IH]; intros issueStr Hs; simpl.
  - by intros [= <-].
  - destruct (Weeks.fetchIssueLastMergeRequest gitlabClient issue)
      as [[mergeRequest|]| |]; simpl; [| |done..]; apply IH.
    + ends_line.
    + destruct (DueDate issue) as [dueDate|].
      * ends_line.
      * ends_line.
Qed.

Lemma Weeks_formatGroups_blocks gitlabClient projectNameMap issuesStrs visited :
  Weeks.formatGroups gitlabClient projectNameMap issuesStrs visited
  = (blocks ← Weeks_blocks gitlabClient projectNameMap visited;
     Ok (issuesStrs ++ blocks)).
Proof.
  revert issuesStrs.
  induction visited as [|[group issueGroup] rest IH]; intros issuesStrs.
  - simpl. by rewrite app_nil_r.
  - simpl. unfold Weeks_block. simpl.
    destruct (length issueGroup =? 0)%nat; simpl.
    + rewrite IH. by destruct (Weeks_blocks _ _ rest).
    + destruct (Weeks.formatIssueGroup _ _ issueGroup); simpl; [|done..].
      rewrite IH. destruct (Weeks_blocks _ _ rest); simpl; [|done..].
      by rewrite <- app_assoc.
Qed.

Lemma Weeks_formatGroupedIssues_blocks gitlabClient now range groupedIssues :
  Weeks.formatGroupedIssues gitlabClient now range groupedIssues
  = (projectNameMap ← fetchProjectNameMap gitlabClient now;
     blocks ← Weeks_blocks gitlabClient projectNameMap (visit range groupedIssues);
     Ok (strings_Join blocks EmptyString)).
Proof.
  unfold Weeks.formatGroupedIssues.
  destruct (fetchProjectNameMap gitlabClient now); [|done..].
  simpl. rewrite Weeks_formatGroups_blocks.
  by destruct (Weeks_blocks _ _ _).
Qed.

Lemma Weeks_block_ends gitlabClient projectNameMap entry block :
  Weeks_block gitlabClient projectNameMap entry = Ok (Some block) ->
  ends_with_text_line block.
Proof.
  unfold Weeks_block. destruct (length entry.2 =? 0)%nat; [done|].
  destruct (Weeks.formatIssueGroup _ _ _) as [text| |] eqn:Ht; [|done..].
  intros [= <-]. eapply Weeks_formatIssueGroup_ends; [|exact Ht].
  ends_line.
Qed.

(** ** Sections *)

Lemma visited_groups_nonempty (range : MapRange (list Issue)) issues entry :
  entry ∈ visit range (groupIssuesByProject issues) -> entry.2 <> [].
Proof.
  rewrite (visit_perm range). destruct entry as [group issueGroup].
  intros Hin%elem_of_map_to_list. by eapply groupIssuesByProject_nonempty.
Qed.

Lemma visited_nonempty (range : MapRange (list Issue)) (m : gmap Z (list Issue)) :
  m <> ∅ -> visit range m <> [].
Proof.
  intros Hm Hv. apply Hm, map_to_list_empty_iff.
  apply Permutation_nil_r. by rewrite <- Hv, (visit_perm range).
Qed.

Lemma Weekly_body_ends gitlabClient now range issues body :
  issues <> [] ->
  Weekly.formatGroupedIssues gitlabClient now range (groupIssuesByProject issues)
  = Ok body ->
  ends_with_text_line body.
Proof.
  intros Hne. rewrite Weekly_formatGroupedIssues_blocks.
  destruct (fetchProjectNameMap gitlabClient now) as [names| |]; [|done..].
  simpl. intros [= <-].
  pose proof (visited_nonempty range (groupIssuesByProject issues)) as Hv.
  pose proof (visited_groups_nonempty range issues) as Hg.
  destruct (visit range (groupIssuesByProject issues)) as [|entry rest].
  { exfalso. apply Hv; [|done]. by rewrite groupIssuesByProject_empty. }
  apply strings_Join_ends.
  - simpl. unfold Weekly_block at 1.
    destruct (length entry.2 =? 0)%nat eqn:Hl; [|done].
    apply Nat.eqb_eq, length_zero_iff_nil in Hl.
    exfalso. by apply (Hg entry); [left|].
  - apply Forall_forall. intros block (entry' & _ & Hb)%list_elem_of_omap.
    by eapply Weekly_block_ends.
Qed.

Lemma Weeks_blocks_ends gitlabClient projectNameMap visited blocks :
  Weeks_blocks gitlabClient projectNameMap visited = Ok blocks ->
  Forall ends_with_text_line blocks.
Proof.
  revert blocks. induction visited as [|entry rest IH]; intros blocks; simpl.
  - by intros [= <-].
  - destruct (Weeks_block _ _ entry) as [block| |] eqn:Hb; simpl; [|done..].
    destruct (Weeks_blocks _ _ rest) as [blocks'| |]; simpl; [|done..].
    intros [= <-]. apply Forall_app. split; [|by apply IH].
    destruct block as [block|]; simpl; [|done].
    apply Forall_singleton. by eapply Weeks_block_ends.
Qed.

Lemma Weeks_body_ends gitlabClient now range issues body :
  issues <> [] ->
  Weeks.formatGroupedIssues gitlabClient now range (groupIssuesByProject issues)
  = Ok body ->
  ends_with_text_line body.
Proof.
  intros Hne. rewrite Weeks_formatGroupedIssues_blocks.
  destruct (fetchProjectNameMap gitlabClient now) as [names| |]; [|done..].
  simpl.
  destruct (Weeks_blocks _ _ _) as [blocks| |] eqn:Hbs; simpl; [|done..].
  intros [= <-].
  pose proof (visited_nonempty range (groupIssuesByProject issues)) as Hv.
  pose proof (visited_groups_nonempty range issues) as Hg.
  apply strings_Join_ends; [|by eapply Weeks_blocks_ends].
  destruct (visit range (groupIssuesByProject issues)) as [|entry rest].
  { exfalso. apply Hv; [|done]. by rewrite groupIssuesByProject_empty. }
  simpl in Hbs. unfold Weeks_block at 1 in Hbs.
  destruct (length entry.2 =? 0)%nat eqn:Hl.
  { apply Nat.eqb_eq, length_zero_iff_nil in Hl.
    exfalso. by apply (Hg entry); [left|]. }
  destruct (Weeks.formatIssueGroup _ _ _); simpl in Hbs; [|done..].
  destruct (Weeks_blocks _ _ rest); simpl in Hbs; [|done..].
  by injection Hbs as <-.
Qed.

Lemma section_shape_of issues title (body : outcome string) :
  (forall rest, begins_with_blank_line (title +:+ rest) = false) ->
  (issues <> [] -> forall text, body = Ok text -> ends_with_text_line text) ->
  section_shape issues
    (if (length issues =? 0)%nat then Ok EmptyString
     else if (size (groupIssuesByProject issues) =? 0)%nat then Ok EmptyString
     else text ← body; Ok (title +:+ text +:+ CRLF)).
Proof.
  intros Htitle Hbody. split.
  - intros ->%groupIssuesByProject_empty. done.
  - intros Hm text. rewrite groupIssuesByProject_empty in Hm.
    destruct issues as [|issue issues]; [done|]. simpl (length _ =? 0)%nat. cbv iota.
    destruct (size _ =? 0)%nat eqn:Hs.
    { apply Nat.eqb_eq, map_size_empty_iff, groupIssuesByProject_empty in Hs. done. }
    destruct body as [text'| |]; simpl; [|done..]. intros [= <-].
    split; [apply Htitle|].
    apply trailing_blank_lines_section. by apply Hbody.
Qed.

(** C5: a rendered section is the empty string when the grouping of the
    fetched issues is empty; when the grouping is not empty and the section
    is rendered, its text does not begin with a blank line and ends with
    exactly one blank line.  For the two sections of both revisions, under
    every iteration order of the grouping. *)
Theorem renderSection_shape config gitlabClient now range :
  (forall issues,
      Weekly.fetchClosedLastWeekIssues config gitlabClient now = Ok issues ->
      section_shape issues
        (Weekly.formatClosedLastWeekIssues config gitlabClient now range))
  /\ (forall issues,
      Weekly.fetchToCloseThisWeekIssues config gitlabClient = Ok issues ->
      section_shape issues
        (Weekly.formatToCloseThisWeekIssues config gitlabClient now range))
  /\ (forall weeks issues,
      Weeks.fetchClosedLastWeeksIssues config gitlabClient now weeks = Ok issues ->
      section_shape issues
        (Weeks.formatClosedLastWeeksIssues config gitlabClient now range weeks))
  /\ (forall issues,
      Weeks.fetchToCloseThisWeekIssues config gitlabClient = Ok issues ->
      section_shape issues
        (Weeks.formatToCloseThisWeekIssues config gitlabClient now range)).
Proof.
  split; [|split; [|split]].
  - intros issues Hf. unfold Weekly.formatClosedLastWeekIssues. rewrite Hf.
    apply section_shape_of; [reflexivity|]. intros Hne text.
    by apply Weekly_body_ends.
  - intros issues Hf. unfold Weekly.formatToCloseThisWeekIssues. rewrite Hf.
    apply section_shape_of; [reflexivity|]. intros Hne text.
    by apply Weekly_body_ends.
  - intros weeks issues Hf. unfold Weeks.formatClosedLastWeeksIssues. rewrite Hf.
    apply section_shape_of; [reflexivity|]. intros Hne text.
    by apply Weeks_body_ends.
  - intros issues Hf. unfold Weeks.formatToCloseThisWeekIssues. rewrite Hf.
    apply section_shape_of; [reflexivity|]. intros Hne text.
    by apply Weeks_body_ends.
Qed.

(** ** Project names *)

Lemma Weekly_block_name_default names names' entry :
  default EmptyString (names !! entry.1) = default EmptyString (names' !! entry.1) ->
  Weekly_block names entry = Weekly_block names' entry.
Proof. unfold Weekly_block. by intros ->. Qed.

Lemma Weeks_block_name_default gitlabClient names names' entry :
  default EmptyString (names !! entry.1) = default EmptyString (names' !! entry.1) ->
  Weeks_block gitlabClient names entry = Weeks_block gitlabClient names' entry.
Proof. unfold Weeks_block. by intros ->. Qed.

Lemma default_insert_empty (names : gmap Z string) group group' :
  names !! group = None ->
  default EmptyString (<[group := EmptyString]> names !! group')
  = default EmptyString (names !! group').
Proof.
  intros Hnone. destruct (decide (group = group')) as [<-|Hne].
  - by rewrite lookup_insert_eq, Hnone.
  - by rewrite lookup_insert_ne.
Qed.

Lemma Weeks_blocks_name_default gitlabClient names group visited :
  names !! group = None ->
  Weeks_blocks gitlabClient (<[group := EmptyString]> names) visited
  = Weeks_blocks gitlabClient names visited.
Proof.
  intros Hnone. induction visited as [|entry rest IH]; [done|]. simpl.
  rewrite IH. f_equal.
  rewrite (Weeks_block_name_default _ _ names); [done|].
  by apply default_insert_empty.
Qed.

(** C7: for a group whose project identifier is absent from the
    project-name map, the heading is rendered with the empty string as
    name, and the rest of the rendering goes on as usual; the rendering is
    the one obtained with the identifier mapped to the empty name, so the
    absence is never a cause of failure, and in [weeports.go] the rendering
    of the groups always yields a text once the name map is fetched. *)
Theorem missing_project_name gitlabClient now names group issueGroup :
  names !! group = None -> issueGroup <> [] ->
  (forall issuesStrs rest,
      Weekly.formatGroups names issuesStrs ((group, issueGroup) :: rest)
      = Weekly.formatGroups names
          (issuesStrs ++ [Weekly.formatIssueGroup ("* " +:+ EmptyString +:+ ":" +:+ CRLF) issueGroup])
          rest)
  /\ (forall issuesStrs rest,
      Weeks.formatGroups gitlabClient names issuesStrs ((group, issueGroup) :: rest)
      = (issueStr ← Weeks.formatIssueGroup gitlabClient
                      ("#### " +:+ EmptyString +:+ ":" +:+ CRLF) issueGroup;
         Weeks.formatGroups gitlabClient names (issuesStrs ++ [issueStr]) rest))
  /\ (forall issuesStrs visited,
      Weekly.formatGroups (<[group := EmptyString]> names) issuesStrs visited
      = Weekly.formatGroups names issuesStrs visited
      /\ Weeks.formatGroups gitlabClient (<[group := EmptyString]> names) issuesStrs visited
         = Weeks.formatGroups gitlabClient names issuesStrs visited)
  /\ (forall range groupedIssues,
      fetchProjectNameMap gitlabClient now = Ok names ->
      exists text,
        Weekly.formatGroupedIssues gitlabClient now range groupedIssues = Ok text).
Proof.
  intros Hnone Hne.
  assert (Hlen : (length issueGroup =? 0)%nat = false).
  { by destruct issueGroup. }
  split; [|split; [|split]].
  - intros issuesStrs rest. simpl. by rewrite Hlen, Hnone.
  - intros issuesStrs rest. simpl. by rewrite Hlen, Hnone.
  - intros issuesStrs visited. split.
    + rewrite !Weekly_formatGroups_blocks. f_equal.
      apply list_omap_ext, Forall2_same_length_lookup_2; [done|].
      intros i entry entry' Hi Hi'. rewrite Hi in Hi'. injection Hi' as <-.
      apply Weekly_block_name_default. by apply default_insert_empty.
    + rewrite !Weeks_formatGroups_blocks. by rewrite Weeks_blocks_name_default.
  - intros range groupedIssues Hnames.
    rewrite Weekly_formatGroupedIssues_blocks, Hnames. simpl. by eexists.
Qed.

(** ** The order of the sub-blocks *)

Lemma visit_small (range range' : MapRange (list Issue)) (m : gmap Z (list Issue)) :
  size m <= 1 -> visit range m = visit range' m.
Proof.
  intros Hs. pose proof (visit_perm range m) as Hp.
  pose proof (visit_perm range' m) as Hp'.
  rewrite <- Hp' in Hp. clear Hp'.
  pose proof (Permutation_length (visit_perm range' m)) as Hl.
  rewrite length_map_to_list in Hl.
  destruct (visit range' m) as [|entry [|entry' rest]]; simpl in Hl; [| |lia].
  - by apply Permutation_nil_r in Hp.
  - by apply Permutation_singleton_r in Hp.
Qed.

Lemma Weeks_blocks_Permutation gitlabClient names visited visited' :
  visited ≡ₚ visited' ->
  forall blocks, Weeks_blocks gitlabClient names visited = Ok blocks ->
  exists blocks', Weeks_blocks gitlabClient names visited' = Ok blocks'
                  /\ blocks ≡ₚ blocks'.
Proof.
  induction 1 as [|entry l l' Hp IH|x y l|l l' l'' Hp IH Hp' IH']; intros blocks; simpl.
  - intros [= <-]. by exists [].
  - destruct (Weeks_block _ _ entry) as [block| |]; simpl; [|done..].
    destruct (Weeks_blocks _ _ l) as [bs| |]; simpl; [|done..].
    intros [= <-]. destruct (IH bs eq_refl) as (bs' & -> & Hbs). simpl.
    eexists. split; [done|]. by rewrite Hbs.
  - destruct (Weeks_block _ _ y) as [by_| |]; simpl; [|done..].
    destruct (Weeks_block _ _ x) as [bx| |]; simpl; [|done..].
    destruct (Weeks_blocks _ _ l) as [bs| |]; simpl; [|done..].
    intros [= <-]. eexists. split; [done|].
    rewrite !app_assoc. f_equiv. apply Permutation_app_comm.
  - intros Hb. destruct (IH _ Hb) as (bs' & Hb' & Hbs).
    destruct (IH' _ Hb') as (bs'' & Hb'' & Hbs').
    exists bs''. split; [done|]. by etrans.
Qed.

(** C8, amended: for a fixed grouping, name map and correlation results the
    sub-block of every project is determined, and every rendering is the
    concatenation of exactly these sub-blocks in some order; the order of
    the sub-blocks of different projects is not determined.  With at most
    one project the rendering is the same under every iteration order. *)
Theorem rendering_up_to_block_order gitlabClient now names range groupedIssues :
  fetchProjectNameMap gitlabClient now = Ok names ->
  (exists blocks,
      blocks ≡ₚ omap (Weekly_block names) (map_to_list groupedIssues)
      /\ Weekly.formatGroupedIssues gitlabClient now range groupedIssues
         = Ok (strings_Join blocks EmptyString))
  /\ (forall blocks,
      Weeks_blocks gitlabClient names (map_to_list groupedIssues) = Ok blocks ->
      exists blocks',
        blocks' ≡ₚ blocks
        /\ Weeks.formatGroupedIssues gitlabClient now range groupedIssues
           = Ok (strings_Join blocks' EmptyString))
  /\ (size groupedIssues <= 1 ->
      forall range',
        Weekly.formatGroupedIssues gitlabClient now range groupedIssues
        = Weekly.formatGroupedIssues gitlabClient now range' groupedIssues
        /\ Weeks.formatGroupedIssues gitlabClient now range groupedIssues
           = Weeks.formatGroupedIssues gitlabClient now range' groupedIssues).
Proof.
  intros Hnames. split; [|split].
  - exists (omap (Weekly_block names) (visit range groupedIssues)). split.
    + by rewrite (visit_perm range).
    + by rewrite Weekly_formatGroupedIssues_blocks, Hnames.
  - intros blocks Hb.
    destruct (Weeks_blocks_Permutation gitlabClient names _ _
                (symmetry (visit_perm range groupedIssues)) _ Hb)
      as (blocks' & Hb' & Hperm).
    exists blocks'. split; [done|].
    by rewrite Weeks_formatGroupedIssues_blocks, Hnames; simpl; rewrite Hb'.
  - intros Hs range'.
    rewrite !Weekly_formatGroupedIssues_blocks, !Weeks_formatGroupedIssues_blocks.
    by rewrite (visit_small range range').
Qed.

(** ** The subject line *)

Lemma Format_day_layout t : Format t "2006-01-02" = isoDate_spec t.
Proof. apply ISOTime_String_iso. Qed.

Lemma Format_month_layout t :
  Format t "2006-01-01"
  = appendInt (Year t) 4 +:+ "-" +:+ appendInt (Month t) 2 +:+ "-"
    +:+ appendInt (Month t) 2.
Proof. unfold Format. simpl. by rewrite append_empty_r. Qed.

Lemma Weeks_sendEmail_subject config now SendMail msgBody message :
  Weeks.sendEmail config now SendMail msgBody = Ok message ->
  message
  = "To: " +:+ RecipientEmail config +:+ CRLF
    +:+ "Subject: Weekly report (" +:+ isoDate_spec now +:+ ")" +:+ CRLF
    +:+ CRLF +:+ msgBody +:+ CRLF.
Proof.
  unfold Weeks.sendEmail. rewrite Format_day_layout.
  destruct (SendMail _ _ _ _); [done|]. by intros [= <-].
Qed.

Example Contains_finds :
  Contains "Subject: Weekly report (2024-03-15)" "2024-03-15" = true.
Proof. reflexivity. Qed.

(** C9: on 2024-03-15 the message [weeports.go] sends has the subject
    "Weekly report (2024-03-03)": the layout ["2006-01-01"] prints the month
    twice, and the run date in YYYY-MM-DD form does not occur in the
    message. *)
Theorem sendEmail_subject_repeats_month :
  exists message,
    Weekly.sendEmail Sample.config Sample.runDate Sample.sent "body" = Ok message
    /\ message
       = "To: manager@domain.com" +:+ CRLF
         +:+ "Subject: Weekly report (2024-03-03)" +:+ CRLF
         +:+ CRLF +:+ "body" +:+ CRLF
    /\ isoDate_spec Sample.runDate = "2024-03-15"
    /\ Contains message (isoDate_spec Sample.runDate) = false.
Proof. eexists. repeat split; vm_compute; reflexivity. Qed.

Lemma renderSection_shape_witness :
  section_shape [Sample.issue 1 10 0 "Fix 42"]
    (Weekly.formatClosedLastWeekIssues Sample.config
       (Sample.service [Sample.issue 1 10 0 "Fix 42"] [] [])
       Sample.runDate Sample.ascending).
Proof.
  apply (proj1 (renderSection_shape Sample.config
                  (Sample.service [Sample.issue 1 10 0 "Fix 42"] [] [])
                  Sample.runDate Sample.ascending)).
  vm_compute. reflexivity.
Defined.

Example formatClosedLastWeekIssues_one_issue :
  Weekly.formatClosedLastWeekIssues Sample.config
    (Sample.service [Sample.issue 1 10 0 "Fix 42"] [] [])
    Sample.runDate Sample.ascending
  = Ok ("Issues closed last week:" +:+ CRLF +:+ CRLF
        +:+ "* :" +:+ CRLF
        +:+ String TAB "* [Fix 42](https://git.domain.com/i)" +:+ CRLF
        +:+ CRLF).
Proof. vm_compute. reflexivity. Qed.

Lemma missing_project_name_witness :
  exists text,
    Weekly.formatGroupedIssues (Sample.service [] [] []) Sample.runDate
      Sample.ascending (groupIssuesByProject [Sample.issue 1 10 0 "Fix 42"])
    = Ok text.
Proof.
  apply (proj2 (proj2 (proj2
           (missing_project_name (Sample.service [] [] []) Sample.runDate
              ∅ 10 [Sample.issue 1 10 0 "Fix 42"]
              (lookup_empty 10) ltac:(discriminate))))).
  reflexivity.
Defined.

(** C8 as stated fails: the same grouping, name map and service are
    rendered to two different texts by two iteration orders of the map. *)
Lemma rendering_order_differs :
  exists text text',
    Weekly.formatGroupedIssues (Sample.service [] [] []) Sample.runDate
      Sample.ascending
      (groupIssuesByProject [Sample.issue 1 10 0 "A"; Sample.issue 2 20 0 "B"])
    = Ok text
    /\ Weekly.formatGroupedIssues (Sample.service [] [] []) Sample.runDate
         Sample.descending
         (groupIssuesByProject [Sample.issue 1 10 0 "A"; Sample.issue 2 20 0 "B"])
       = Ok text'
    /\ String.eqb text text' = false.
Proof.
  eexists. eexists.
  split; [vm_compute; reflexivity|]. split; [vm_compute; reflexivity|].
  vm_compute. reflexivity.
Qed.

Lemma rendering_up_to_block_order_witness :
  exists blocks,
    blocks ≡ₚ omap (Weekly_block ∅)
                (map_to_list
                   (groupIssuesByProject
                      [Sample.issue 1 10 0 "A"; Sample.issue 2 20 0 "B"]))
    /\ Weekly.formatGroupedIssues (Sample.service [] [] []) Sample.runDate
         Sample.descending
         (groupIssuesByProject [Sample.issue 1 10 0 "A"; Sample.issue 2 20 0 "B"])
       = Ok (strings_Join blocks EmptyString).
Proof.
  apply (proj1 (rendering_up_to_block_order (Sample.service [] [] [])
                  Sample.runDate ∅ Sample.descending
                  (groupIssuesByProject
                     [Sample.issue 1 10 0 "A"; Sample.issue 2 20 0 "B"])
                  ltac:(reflexivity))).
Defined.

(* ===================================================================== *)
(** * Part IX: further properties of the code                             *)
(* ===================================================================== *)

(** ** What the deleting loop keeps *)

(** Induction two elements at a time, the way [skipScan] recurses. *)
Lemma list_pair_ind {A} (P : list A -> Prop) :
  P [] -> (forall x, P [x]) ->
  (forall x y s, P s -> P (y :: s) -> P (x :: y :: s)) ->
  forall s, P s.
Proof.
  intros Hnil Hone Hstep s.
  assert (H : P s /\ forall x, P (x :: s)); [|by destruct H].
  induction s as [|y s [IH1 IH2]]; [by split|].
  split; [apply IH2|]. intros x. by apply Hstep.
Qed.

Lemma skipScan_sublist {A} (del : A -> bool) s : skipScan del s `sublist_of` s.
Proof.
  induction s as [|x|x y s IH1 IH2] using list_pair_ind; simpl.
  - done.
  - destruct (del x); [apply sublist_nil_l|done].
  - destruct (del x).
    + by apply sublist_cons, sublist_skip.
    + by apply sublist_skip.
Qed.

Lemma skipScan_keeps {A} (del : A -> bool) s :
  filter (fun x => del x = false) s `sublist_of` skipScan del s.
Proof.
  induction s as [|x|x y s IH1 IH2] using list_pair_ind.
  - done.
  - simpl. destruct (del x) eqn:Hx.
    + by rewrite filter_cons_False by congruence.
    + by rewrite filter_cons_True by done.
  - cbn [skipScan]. destruct (del x) eqn:Hx.
    + rewrite filter_cons_False by congruence.
      destruct (del y) eqn:Hy.
      * rewrite filter_cons_False by congruence. by apply sublist_cons.
      * rewrite filter_cons_True by done. by apply sublist_skip.
    + rewrite filter_cons_True by done. by apply sublist_skip.
Qed.

Lemma skipScan_filter {A} (del : A -> bool) s :
  noAdjacent del s = true ->
  skipScan del s = filter (fun x => del x = false) s.
Proof.
  induction s as [|x|x y s IH1 IH2] using list_pair_ind.
  - done.
  - intros _. simpl. destruct (del x) eqn:Hx.
    + by rewrite filter_cons_False by congruence.
    + by rewrite filter_cons_True by done.
  - intros Hadj. cbn [noAdjacent] in Hadj.
    apply andb_true_iff in Hadj as [Hxy Hrest].
    cbn [skipScan]. destruct (del x) eqn:Hx.
    + rewrite filter_cons_False by congruence.
      destruct (del y) eqn:Hy; [done|].
      rewrite filter_cons_True by done. f_equal. apply IH1.
      cbn [noAdjacent] in Hrest. by apply andb_true_iff in Hrest as [_ ?].
    + rewrite filter_cons_True by done. f_equal. by apply IH2.
Qed.

Lemma skipScan_nil {A} (del : A -> bool) s :
  skipScan del s = [] <-> s = [] \/ exists x, s = [x] /\ del x = true.
Proof.
  destruct s as [|x [|y s]]; simpl.
  - split; [by left|done].
  - destruct (del x) eqn:Hx.
    + split; [|done]. intros _. right. by exists x.
    + split; [done|]. intros [|(z & [= ->] & Hz)]; congruence.
  - split.
    + by destruct (del x).
    + intros [|(z & ? & _)]; congruence.
Qed.

Lemma skipScan_cons_keep {A} (del : A -> bool) x s :
  del x = false -> skipScan del (x :: s) = x :: skipScan del s.
Proof. intros Hx. simpl. by rewrite Hx. Qed.

Lemma skipScan_cons_skip {A} (del : A -> bool) x y s :
  del x = true -> skipScan del (x :: y :: s) = y :: skipScan del s.
Proof. intros Hx. simpl. by rewrite Hx. Qed.

Lemma skipScan_last {A} (del : A -> bool) s x :
  last s = Some x -> del x = false -> last (skipScan del s) = Some x.
Proof.
  intros Hlast Hx. revert Hlast.
  induction s as [|z|z y s IH1 IH2] using list_pair_ind.
  - done.
  - simpl. intros [= ->]. by rewrite Hx.
  - rewrite last_cons. intros Hlast.
    assert (Hys : last (y :: s) = Some x)
      by (destruct (last (y :: s)) eqn:E; [done|by apply last_None in E]).
    destruct (del z) eqn:Hz.
    + rewrite skipScan_cons_skip, last_cons by done.
      rewrite last_cons in Hys.
      destruct s as [|w s]; [done|].
      assert (Hws : last (w :: s) = Some x)
        by (destruct (last (w :: s)) eqn:E; [done|by apply last_None in E]).
      by rewrite (IH1 Hws).
    + rewrite skipScan_cons_keep, last_cons by done. by rewrite (IH2 Hys).
Qed.

(** ** The closed-issue filter on every answer *)

Lemma closedFilter_spec_moved issues :
  closedFilter_spec issues = filter (fun issue => moved issue = false) issues.
Proof.
  unfold closedFilter_spec. apply list_filter_iff. intros issue. unfold moved.
  rewrite negb_false_iff. symmetry. apply Z.eqb_eq.
Qed.

Lemma findLatest_spec_unmatched issue candidates :
  findLatest_spec issue candidates
  = last (filter (fun mergeRequest => unmatched issue mergeRequest = false)
                 candidates).
Proof.
  unfold findLatest_spec. f_equal. apply list_filter_iff. intros mergeRequest.
  unfold unmatched. rewrite negb_false_iff. symmetry. apply String.eqb_eq.
Qed.

Lemma Weeks_fetchClosed_answer config gitlabClient now weeks :
  Weeks.fetchClosedLastWeeksIssues config gitlabClient now weeks
  = if err (ListIssues gitlabClient (Weeks_closedQuery config now weeks))
       || negb (String.eqb
                  (Status (response
                     (ListIssues gitlabClient (Weeks_closedQuery config now weeks))))
                  "200 OK")
    then Fatal
    else Ok (skipScan moved
               (items (ListIssues gitlabClient (Weeks_closedQuery config now weeks)))).
Proof.
  unfold Weeks.fetchClosedLastWeeksIssues. cbv zeta.
  fold (Weeks_closedQuery config now weeks).
  destruct (_ || _); [done|].
  fold moved. by rewrite forDelete_skipScan, take_0, drop_0.
Qed.

(** X1: in [weeports.go] the closed-issue fetch ends in [log.Fatal] when the
    request fails or its status is not "200 OK", and otherwise returns the
    answer of the service exactly as received: the deleting loop removes
    nothing. *)
Theorem Weekly_fetchClosed_returns_answer config gitlabClient now :
  Weekly.fetchClosedLastWeekIssues config gitlabClient now
  = if err (ListIssues gitlabClient (Weekly_closedQuery config now))
       || negb (String.eqb
                  (Status (response
                     (ListIssues gitlabClient (Weekly_closedQuery config now))))
                  "200 OK")
    then Fatal
    else Ok (items (ListIssues gitlabClient (Weekly_closedQuery config now))).
Proof.
  unfold Weekly.fetchClosedLastWeekIssues. cbv zeta.
  fold (Weekly_closedQuery config now).
  destruct (_ || _); [done|]. apply forDelete_keep_all.
Qed.

(** X2: in the [-weeks] revision the closed-issue fetch only removes moved
    issues and keeps the order: what it returns is a sub-sequence of the
    answer, and the issues of the answer that were not moved are a
    sub-sequence of what it returns. *)
Theorem Weeks_fetchClosed_between config gitlabClient now weeks issues :
  Weeks.fetchClosedLastWeeksIssues config gitlabClient now weeks = Ok issues ->
  closedFilter_spec
    (items (ListIssues gitlabClient (Weeks_closedQuery config now weeks)))
    `sublist_of` issues
  /\ issues `sublist_of`
       items (ListIssues gitlabClient (Weeks_closedQuery config now weeks)).
Proof.
  rewrite Weeks_fetchClosed_answer. destruct (_ || _); [done|].
  intros [= <-]. split.
  - rewrite closedFilter_spec_moved. apply skipScan_keeps.
  - apply skipScan_sublist.
Qed.

Lemma Weeks_fetchClosed_between_witness :
  closedFilter_spec
    [Sample.issue 1 10 98 "Migrated"; Sample.issue 2 10 99 "Migrated too";
     Sample.issue 3 10 0 "Fix 42"]
    `sublist_of`
    [Sample.issue 2 10 99 "Migrated too"; Sample.issue 3 10 0 "Fix 42"]
  /\ [Sample.issue 2 10 99 "Migrated too"; Sample.issue 3 10 0 "Fix 42"]
     `sublist_of`
     [Sample.issue 1 10 98 "Migrated"; Sample.issue 2 10 99 "Migrated too";
      Sample.issue 3 10 0 "Fix 42"].
Proof.
  apply (Weeks_fetchClosed_between Sample.config
           (Sample.service
              [Sample.issue 1 10 98 "Migrated"; Sample.issue 2 10 99 "Migrated too";
               Sample.issue 3 10 0 "Fix 42"] [] [])
           Sample.runDate 1).
  vm_compute. reflexivity.
Defined.

(** X3: in the [-weeks] revision, when the request succeeds and no two
    moved issues are next to each other in the answer, the closed-issue
    fetch returns exactly the issues that were not moved. *)
Theorem Weeks_fetchClosed_filters_when_apart config gitlabClient now weeks :
  err (ListIssues gitlabClient (Weeks_closedQuery config now weeks)) = false ->
  Status (response (ListIssues gitlabClient (Weeks_closedQuery config now weeks)))
  = "200 OK" ->
  noAdjacent moved
    (items (ListIssues gitlabClient (Weeks_closedQuery config now weeks))) = true ->
  Weeks.fetchClosedLastWeeksIssues config gitlabClient now weeks
  = Ok (closedFilter_spec
          (items (ListIssues gitlabClient (Weeks_closedQuery config now weeks)))).
Proof.
  intros Herr Hstatus Hadj. rewrite Weeks_fetchClosed_answer, Herr, Hstatus.
  simpl. by rewrite skipScan_filter, closedFilter_spec_moved.
Qed.

Lemma Weeks_fetchClosed_filters_when_apart_witness :
  Weeks.fetchClosedLastWeeksIssues Sample.config
    (Sample.service
       [Sample.issue 1 10 98 "Migrated"; Sample.issue 2 10 0 "Fix 42";
        Sample.issue 3 10 99 "Migrated too"] [] [])
    Sample.runDate 2
  = Ok [Sample.issue 2 10 0 "Fix 42"].
Proof.
  apply (Weeks_fetchClosed_filters_when_apart Sample.config
           (Sample.service
              [Sample.issue 1 10 98 "Migrated"; Sample.issue 2 10 0 "Fix 42";
               Sample.issue 3 10 99 "Migrated too"] [] [])
           Sample.runDate 2); reflexivity.
Defined.

(** ** The candidate filter on every answer *)

Lemma fetchIssueLastMergeRequest_answer gitlabClient issue assignee :
  Assignee issue = Some assignee ->
  Weeks.fetchIssueLastMergeRequest gitlabClient issue
  = if err (ListMergeRequests gitlabClient (mergeRequestQuery assignee))
       || negb (StatusCode
                  (response (ListMergeRequests gitlabClient
                               (mergeRequestQuery assignee))) =? 200)%Z
    then Fatal
    else Ok (last (skipScan (unmatched issue)
                     (items (ListMergeRequests gitlabClient
                               (mergeRequestQuery assignee))))).
Proof. intros Ha. by rewrite (fetchIssueLastMergeRequest_assigned _ _ _ Ha). Qed.

(** X4: for an assigned issue and a successful request,
    [fetchIssueLastMergeRequest] returns no merge request exactly when the
    service lists no candidate, or lists a single candidate and that one
    does not match. *)
Theorem fetchIssueLastMergeRequest_none gitlabClient issue assignee :
  Assignee issue = Some assignee ->
  err (ListMergeRequests gitlabClient (mergeRequestQuery assignee)) = false ->
  StatusCode (response (ListMergeRequests gitlabClient (mergeRequestQuery assignee)))
  = 200%Z ->
  Weeks.fetchIssueLastMergeRequest gitlabClient issue = Ok None
  <-> items (ListMergeRequests gitlabClient (mergeRequestQuery assignee)) = []
      \/ exists mergeRequest,
           items (ListMergeRequests gitlabClient (mergeRequestQuery assignee))
           = [mergeRequest]
           /\ unmatched issue mergeRequest = true.
Proof.
  intros Ha Herr Hstatus.
  rewrite (fetchIssueLastMergeRequest_answer _ _ _ Ha), Herr, Hstatus. simpl.
  rewrite <- skipScan_nil, <- last_None. split; [by intros [= ->]|by intros ->].
Qed.

Lemma fetchIssueLastMergeRequest_none_witness :
  Weeks.fetchIssueLastMergeRequest
    (Sample.service [] [] [Sample.mergeRequest 1 "hotfix"])
    (Sample.issue 1 10 0 "Fix 42")
  = Ok None.
Proof.
  apply (fetchIssueLastMergeRequest_none
           (Sample.service [] [] [Sample.mergeRequest 1 "hotfix"])
           (Sample.issue 1 10 0 "Fix 42") {| AssigneeID := 7 |}
           eq_refl eq_refl eq_refl).
  right. exists (Sample.mergeRequest 1 "hotfix"). split; reflexivity.
Defined.

(** X5: a merge request returned by [fetchIssueLastMergeRequest] is one of
    the candidates the service listed; and when the request succeeds and the
    candidate listed last matches the issue, that candidate is returned. *)
Theorem fetchIssueLastMergeRequest_candidate gitlabClient issue assignee mergeRequest :
  Assignee issue = Some assignee ->
  (Weeks.fetchIssueLastMergeRequest gitlabClient issue = Ok (Some mergeRequest) ->
   mergeRequest ∈ items (ListMergeRequests gitlabClient (mergeRequestQuery assignee)))
  /\ (err (ListMergeRequests gitlabClient (mergeRequestQuery assignee)) = false ->
      StatusCode (response (ListMergeRequests gitlabClient
                              (mergeRequestQuery assignee))) = 200%Z ->
      last (items (ListMergeRequests gitlabClient (mergeRequestQuery assignee)))
      = Some mergeRequest ->
      unmatched issue mergeRequest = false ->
      Weeks.fetchIssueLastMergeRequest gitlabClient issue = Ok (Some mergeRequest)).
Proof.
  intros Ha. rewrite (fetchIssueLastMergeRequest_answer _ _ _ Ha). split.
  - destruct (_ || _); [done|]. intros [= Hlast].
    eapply elem_of_sublist; [|apply skipScan_sublist].
    apply last_Some in Hlast as [front ->]. apply elem_of_app. right. by left.
  - intros -> -> Hlast Hm. simpl. by rewrite (skipScan_last _ _ _ Hlast Hm).
Qed.

Lemma fetchIssueLastMergeRequest_candidate_witness :
  Weeks.fetchIssueLastMergeRequest
    (Sample.service [] []
       [Sample.mergeRequest 1 "hotfix"; Sample.mergeRequest 2 "release";
        Sample.mergeRequest 3 "Fix42"])
    (Sample.issue 1 10 0 "Fix 42")
  = Ok (Some (Sample.mergeRequest 3 "Fix42")).
Proof.
  apply (proj2 (fetchIssueLastMergeRequest_candidate
           (Sample.service [] []
              [Sample.mergeRequest 1 "hotfix"; Sample.mergeRequest 2 "release";
               Sample.mergeRequest 3 "Fix42"])
           (Sample.issue 1 10 0 "Fix 42") {| AssigneeID := 7 |}
           (Sample.mergeRequest 3 "Fix42") eq_refl)); reflexivity.
Defined.

(** X6: for an assigned issue and a successful request, when no two
    candidates that do not match are next to each other in the answer,
    [fetchIssueLastMergeRequest] returns the last candidate whose slugified
    branch is the slugified title, if there is one. *)
Theorem fetchIssueLastMergeRequest_latest_when_apart gitlabClient issue assignee :
  Assignee issue = Some assignee ->
  err (ListMergeRequests gitlabClient (mergeRequestQuery assignee)) = false ->
  StatusCode (response (ListMergeRequests gitlabClient (mergeRequestQuery assignee)))
  = 200%Z ->
  noAdjacent (unmatched issue)
    (items (ListMergeRequests gitlabClient (mergeRequestQuery assignee))) = true ->
  Weeks.fetchIssueLastMergeRequest gitlabClient issue
  = Ok (findLatest_spec issue
          (items (ListMergeRequests gitlabClient (mergeRequestQuery assignee)))).
Proof.
  intros Ha Herr Hstatus Hadj.
  rewrite (fetchIssueLastMergeRequest_answer _ _ _ Ha), Herr, Hstatus. simpl.
  by rewrite skipScan_filter, findLatest_spec_unmatched.
Qed.

Lemma fetchIssueLastMergeRequest_latest_when_apart_witness :
  Weeks.fetchIssueLastMergeRequest
    (Sample.service [] []
       [Sample.mergeRequest 1 "fix-42"; Sample.mergeRequest 2 "hotfix";
        Sample.mergeRequest 3 "Fix42"; Sample.mergeRequest 4 "release"])
    (Sample.issue 1 10 0 "Fix 42")
  = Ok (findLatest_spec (Sample.issue 1 10 0 "Fix 42")
          [Sample.mergeRequest 1 "fix-42"; Sample.mergeRequest 2 "hotfix";
           Sample.mergeRequest 3 "Fix42"; Sample.mergeRequest 4 "release"]).
Proof.
  apply (fetchIssueLastMergeRequest_latest_when_apart
           (Sample.service [] []
              [Sample.mergeRequest 1 "fix-42"; Sample.mergeRequest 2 "hotfix";
               Sample.mergeRequest 3 "Fix42"; Sample.mergeRequest 4 "release"])
           (Sample.issue 1 10 0 "Fix 42") {| AssigneeID := 7 |});
    reflexivity.
Defined.

(** ** The project-name map *)

Lemma projectNameMap_lookup (projects : list Project) id :
  foldl (fun projectNameMap project =>
           <[Project_ID project := Name project]> projectNameMap)
        (∅ : gmap Z string) projects !! id
  = Name <$> last (filter (fun project => Project_ID project = id) projects).
Proof.
  induction projects as [|project projects IH] using rev_ind; [done|].
  rewrite foldl_snoc, filter_app.
  destruct (decide (Project_ID project = id)) as [Heq|Hne].
  - rewrite Heq, lookup_insert_eq. rewrite filter_cons_True by done.
    by rewrite filter_nil, last_snoc.
  - rewrite lookup_insert_ne by done. rewrite IH.
    rewrite filter_cons_False by done. by rewrite filter_nil, app_nil_r.
Qed.

(** X7: the project-name map holds an identifier exactly when the service
    listed a project with it, and maps it to the name of the last such
    project of the listing. *)
Theorem fetchProjectNameMap_last_wins gitlabClient now projectNameMap id :
  fetchProjectNameMap gitlabClient now = Ok projectNameMap ->
  projectNameMap !! id
  = Name <$> last (filter (fun project => Project_ID project = id)
                          (items (ListProjects gitlabClient (projectQuery now)))).
Proof.
  unfold fetchProjectNameMap. cbv zeta. fold (projectQuery now).
  destruct (_ || _); [done|]. intros [= <-]. apply projectNameMap_lookup.
Qed.

Lemma fetchProjectNameMap_last_wins_witness :
  (<[10%Z := "renamed"]> (<[10%Z := "weeports"]> (∅ : gmap Z string))) !! 10%Z
  = Name <$> last (filter (fun project => Project_ID project = 10%Z)
                          [ {| Project_ID := 10; Name := "weeports" |};
                            {| Project_ID := 10; Name := "renamed" |} ]).
Proof.
  apply (fetchProjectNameMap_last_wins
           (Sample.service []
              [ {| Project_ID := 10; Name := "weeports" |};
                {| Project_ID := 10; Name := "renamed" |} ] [])
           Sample.runDate).
  reflexivity.
Defined.

(** ** The alphabet of slugs *)

Lemma isLowerAlnum_toLower c : isAlnum c = true -> isLowerAlnum (toLower c) = true.
Proof. destruct c as [[] [] [] [] [] [] [] []]; (reflexivity || discriminate). Qed.

Lemma toLower_fixed c : isLowerAlnum c = true -> isAlnum c = true /\ toLower c = c.
Proof.
  destruct c as [[] [] [] [] [] [] [] []]; (discriminate || (split; reflexivity)).
Qed.

Lemma toLower_fixed_inv c : isAlnum c = true -> toLower c = c -> isLowerAlnum c = true.
Proof.
  destruct c as [[] [] [] [] [] [] [] []];
    (reflexivity || discriminate || (intros _; discriminate)).
Qed.

Lemma ReplaceAllNonAlnum_length s :
  String.length (ReplaceAllNonAlnum s) <= String.length s.
Proof.
  induction s as [|c s IH]; simpl; [done|]. destruct (isAlnum c); simpl; lia.
Qed.

Lemma ToLower_length s : String.length (ToLower s) = String.length s.
Proof. induction s as [|c s IH]; simpl; [done|]. by rewrite IH. Qed.

(** X8: a slug consists of small ASCII letters and digits only and is no
    longer than the text it is made from; the texts that [slugify] leaves
    unchanged are exactly those made of small ASCII letters and digits. *)
Theorem slugify_alphabet x :
  allChars isLowerAlnum (Weeks.slugify x) = true
  /\ String.length (Weeks.slugify x) <= String.length x
  /\ (Weeks.slugify x = x <-> allChars isLowerAlnum x = true).
Proof.
  unfold Weeks.slugify. split; [|split].
  - induction x as [|c x IH]; simpl; [done|].
    destruct (isAlnum c) eqn:Hc; simpl; [|done].
    by rewrite isLowerAlnum_toLower, IH.
  - rewrite ToLower_length. apply ReplaceAllNonAlnum_length.
  - split.
    + intros Hfix.
      assert (Hlen : String.length (ReplaceAllNonAlnum x) = String.length x)
        by (by rewrite <- (ToLower_length (ReplaceAllNonAlnum x)), Hfix).
      clear -Hfix Hlen. revert Hfix Hlen.
      induction x as [|c x IH]; simpl; [done|].
      pose proof (ReplaceAllNonAlnum_length x) as Hle.
      destruct (isAlnum c) eqn:Hc; simpl.
      * intros [= Hlow Hfix] [= Hlen].
        by rewrite (toLower_fixed_inv c Hc Hlow), IH.
      * intros _ Hlen. lia.
    + induction x as [|c x IH]; simpl; [done|].
      intros [Hc Hx]%andb_true_iff.
      destruct (toLower_fixed c Hc) as [-> Hlow]. simpl. by rewrite Hlow, IH.
Qed.

(** ** Occurrences *)

Lemma occurs_in_here part after : occurs_in part (part +:+ after).
Proof. by exists EmptyString, after. Qed.

Lemma occurs_in_append_l part a text :
  occurs_in part text -> occurs_in part (a +:+ text).
Proof.
  intros (before & after & ->). exists (a +:+ before), after.
  by rewrite append_assoc.
Qed.

Lemma occurs_in_append_r part text b :
  occurs_in part text -> occurs_in part (text +:+ b).
Proof.
  intros (before & after & ->). exists before, (after +:+ b).
  by rewrite !append_assoc.
Qed.

Lemma occurs_in_Join part text (elems : list string) :
  text ∈ elems -> occurs_in part text ->
  occurs_in part (strings_Join elems EmptyString).
Proof.
  unfold strings_Join. intros Hin Hocc.
  induction elems as [|x elems IH]; [by apply elem_of_nil in Hin|].
  apply elem_of_cons in Hin as [<-|Hin]; simpl.
  - destruct elems; [done|]. by apply occurs_in_append_r.
  - destruct elems as [|y elems]; [by apply elem_of_nil in Hin|].
    apply occurs_in_append_l. rewrite append_nil. by apply IH.
Qed.

Lemma visited_covers (range : MapRange (list Issue)) issues issue :
  issue ∈ issues ->
  exists entry, entry ∈ visit range (groupIssuesByProject issues) /\ issue ∈ entry.2.
Proof.
  intros Hin.
  assert (Hg : issue ∈ groupOf (ProjectID issue) issues)
    by (by apply list_elem_of_filter).
  exists (ProjectID issue, groupOf (ProjectID issue) issues). split; [|done].
  rewrite (visit_perm range). apply elem_of_map_to_list.
  rewrite groupIssuesByProject_lookup.
  destruct (groupOf (ProjectID issue) issues); [by apply elem_of_nil in Hg|done].
Qed.

(** ** Every issue is rendered: [weeports.go] *)

Lemma Weekly_formatIssueGroup_step issueStr issue rest :
  Weekly.formatIssueGroup issueStr (issue :: rest)
  = Weekly.formatIssueGroup (issueStr +:+ Weekly_issueText issue) rest.
Proof.
  cbn [Weekly.formatIssueGroup]. f_equal. unfold Weekly_issueText.
  destruct (DueDate issue); rewrite ?append_assoc, ?append_empty_r; done.
Qed.

Lemma Weekly_formatIssueGroup_prefix issueStr issueGroup :
  exists suffix, Weekly.formatIssueGroup issueStr issueGroup = issueStr +:+ suffix.
Proof.
  revert issueStr. induction issueGroup as [|issue rest IH]; intros issueStr.
  - exists EmptyString. simpl. by rewrite append_empty_r.
  - rewrite Weekly_formatIssueGroup_step.
    destruct (IH (issueStr +:+ Weekly_issueText issue)) as [suffix ->].
    eexists. by rewrite append_assoc.
Qed.

Lemma Weekly_formatIssueGroup_occurs issueStr issueGroup issue :
  issue ∈ issueGroup ->
  occurs_in (Weekly_issueText issue) (Weekly.formatIssueGroup issueStr issueGroup).
Proof.
  revert issueStr. induction issueGroup as [|issue' rest IH]; intros issueStr Hin.
  { by apply elem_of_nil in Hin. }
  rewrite Weekly_formatIssueGroup_step.
  apply elem_of_cons in Hin as [<-|Hin]; [|by apply IH].
  destruct (Weekly_formatIssueGroup_prefix (issueStr +:+ Weekly_issueText issue) rest)
    as [suffix ->].
  rewrite append_assoc. apply occurs_in_append_l, occurs_in_here.
Qed.

Lemma Weekly_body_occurs gitlabClient now range issues body issue :
  Weekly.formatGroupedIssues gitlabClient now range (groupIssuesByProject issues)
  = Ok body ->
  issue ∈ issues -> occurs_in (Weekly_issueText issue) body.
Proof.
  rewrite Weekly_formatGroupedIssues_blocks.
  destruct (fetchProjectNameMap gitlabClient now) as [names| |]; [|done..].
  simpl. intros [= <-] Hin.
  destruct (visited_covers range issues issue Hin) as (entry & Hentry & Hissue).
  assert (Hl : (length entry.2 =? 0)%nat = false).
  { destruct entry.2; [by apply elem_of_nil in Hissue|done]. }
  apply (occurs_in_Join _
           (Weekly.formatIssueGroup
              ("* " +:+ default EmptyString (names !! entry.1) +:+ ":" +:+ CRLF)
              entry.2)).
  - apply list_elem_of_omap. exists entry. split; [done|].
    unfold Weekly_block. by rewrite Hl.
  - by apply Weekly_formatIssueGroup_occurs.
Qed.

Lemma section_occurs part issues title (body : outcome string) text :
  issues <> [] ->
  (forall body', body = Ok body' -> occurs_in part body') ->
  (if (length issues =? 0)%nat then Ok EmptyString
   else if (size (groupIssuesByProject issues) =? 0)%nat then Ok EmptyString
   else body' ← body; Ok (title +:+ body' +:+ CRLF)) = Ok text ->
  occurs_in part text.
Proof.
  intros Hne Hbody. destruct issues as [|i issues]; [done|].
  simpl (length _ =? 0)%nat. cbv iota.
  destruct (size _ =? 0)%nat eqn:Hs.
  { apply Nat.eqb_eq, map_size_empty_iff, groupIssuesByProject_empty in Hs. done. }
  destruct body as [body'| |]; simpl; [|done..]. intros [= <-].
  apply occurs_in_append_l, occurs_in_append_r. by apply Hbody.
Qed.

(** X9: in [weeports.go] a rendered section contains, for every issue that
    was fetched for it, the line with the title and the link of the issue,
    followed by the line with its due date when it has one. *)
Theorem Weekly_every_issue_rendered config gitlabClient now range issue :
  (forall issues text,
      Weekly.fetchClosedLastWeekIssues config gitlabClient now = Ok issues ->
      Weekly.formatClosedLastWeekIssues config gitlabClient now range = Ok text ->
      issue ∈ issues -> occurs_in (Weekly_issueText issue) text)
  /\ (forall issues text,
      Weekly.fetchToCloseThisWeekIssues config gitlabClient = Ok issues ->
      Weekly.formatToCloseThisWeekIssues config gitlabClient now range = Ok text ->
      issue ∈ issues -> occurs_in (Weekly_issueText issue) text).
Proof.
  split; intros issues text Hf Ht Hin.
  - unfold Weekly.formatClosedLastWeekIssues in Ht. rewrite Hf in Ht.
    eapply section_occurs; [|
      |exact Ht]; [by intros ->; apply elem_of_nil in Hin|].
    intros body' Hb. by eapply Weekly_body_occurs.
  - unfold Weekly.formatToCloseThisWeekIssues in Ht. rewrite Hf in Ht.
    eapply section_occurs; [|
      |exact Ht]; [by intros ->; apply elem_of_nil in Hin|].
    intros body' Hb. by eapply Weekly_body_occurs.
Qed.

Lemma Weekly_every_issue_rendered_witness :
  occurs_in (Weekly_issueText (Sample.issue 1 10 0 "Fix 42"))
    ("Issues closed last week:" +:+ CRLF +:+ CRLF
     +:+ "* :" +:+ CRLF
     +:+ String TAB "* [Fix 42](https://git.domain.com/i)" +:+ CRLF
     +:+ CRLF).
Proof.
  apply (proj1 (Weekly_every_issue_rendered Sample.config
                  (Sample.service [Sample.issue 1 10 0 "Fix 42"] [] [])
                  Sample.runDate Sample.ascending (Sample.issue 1 10 0 "Fix 42"))
           [Sample.issue 1 10 0 "Fix 42"]).
  - vm_compute. reflexivity.
  - vm_compute. reflexivity.
  - apply list_elem_of_singleton. reflexivity.
Defined.

(** ** Every issue is rendered: the [-weeks] revision *)

Lemma Weeks_formatIssueGroup_step gitlabClient issueStr issue rest :
  Weeks.formatIssueGroup gitlabClient issueStr (issue :: rest)
  = (mergeRequest ← Weeks.fetchIssueLastMergeRequest gitlabClient issue;
     Weeks.formatIssueGroup gitlabClient
       (issueStr +:+ Weeks_issueText issue +:+ Weeks_mergeRequestText mergeRequest)
       rest).
Proof.
  cbn [Weeks.formatIssueGroup].
  destruct (Weeks.fetchIssueLastMergeRequest gitlabClient issue)
    as [mergeRequest| |]; [|done..].
  simpl. f_equal. unfold Weeks_issueText, Weeks_mergeRequestText.
  destruct (DueDate issue), mergeRequest;
    rewrite ?append_assoc, ?append_empty_r; done.
Qed.

Lemma Weeks_formatIssueGroup_prefix gitlabClient issueStr issueGroup text :
  Weeks.formatIssueGroup gitlabClient issueStr issueGroup = Ok text ->
  exists suffix, text = issueStr +:+ suffix.
Proof.
  revert issueStr. induction issueGroup as [|issue rest IH]; intros issueStr.
  - intros [= <-]. exists EmptyString. by rewrite append_empty_r.
  - rewrite Weeks_formatIssueGroup_step.
    destruct (Weeks.fetchIssueLastMergeRequest gitlabClient issue)
      as [mergeRequest| |]; [|done..].
    simpl. intros [suffix ->]%IH. eexists. by rewrite append_assoc.
Qed.

Lemma Weeks_formatIssueGroup_occurs gitlabClient issueStr issueGroup text issue :
  Weeks.formatIssueGroup gitlabClient issueStr issueGroup = Ok text ->
  issue ∈ issueGroup ->
  exists mergeRequest,
    Weeks.fetchIssueLastMergeRequest gitlabClient issue = Ok mergeRequest
    /\ occurs_in (Weeks_issueText issue +:+ Weeks_mergeRequestText mergeRequest) text.
Proof.
  revert issueStr. induction issueGroup as [|issue' rest IH]; intros issueStr Ht Hin.
  { by apply elem_of_nil in Hin. }
  rewrite Weeks_formatIssueGroup_step in Ht.
  destruct (Weeks.fetchIssueLastMergeRequest gitlabClient issue')
    as [mergeRequest| |] eqn:Hmr; [|done..].
  simpl in Ht. apply elem_of_cons in Hin as [->|Hin]; [|by eapply IH].
  exists mergeRequest. split; [done|].
  apply Weeks_formatIssueGroup_prefix in Ht as [suffix ->].
  rewrite append_assoc. apply occurs_in_append_l, occurs_in_here.
Qed.

Lemma Weeks_blocks_occurs gitlabClient names visited blocks entry issue :
  Weeks_blocks gitlabClient names visited = Ok blocks ->
  entry ∈ visited -> issue ∈ entry.2 ->
  exists mergeRequest block,
    Weeks.fetchIssueLastMergeRequest gitlabClient issue = Ok mergeRequest
    /\ block ∈ blocks
    /\ occurs_in (Weeks_issueText issue +:+ Weeks_mergeRequestText mergeRequest) block.
Proof.
  revert blocks. induction visited as [|entry' rest IH]; intros blocks Hb Hentry Hissue.
  { by apply elem_of_nil in Hentry. }
  simpl in Hb.
  destruct (Weeks_block _ _ entry') as [block| |] eqn:Hblock; simpl in Hb; [|done..].
  destruct (Weeks_blocks _ _ rest) as [blocks'| |]; simpl in Hb; [|done..].
  injection Hb as <-.
  apply elem_of_cons in Hentry as [->|Hentry].
  - unfold Weeks_block in Hblock.
    destruct (length entry'.2 =? 0)%nat eqn:Hl.
    { destruct entry'.2; [by apply elem_of_nil in Hissue|done]. }
    destruct (Weeks.formatIssueGroup _ _ _) as [text| |] eqn:Ht;
      simpl in Hblock; [|done..].
    injection Hblock as <-.
    destruct (Weeks_formatIssueGroup_occurs _ _ _ _ _ Ht Hissue)
      as (mergeRequest & Hmr & Hocc).
    exists mergeRequest, text. split; [done|]. split; [|done]. simpl. by left.
  - destruct (IH blocks' eq_refl Hentry Hissue)
      as (mergeRequest & block' & Hmr & Hin & Hocc).
    exists mergeRequest, block'. split; [done|]. split; [|done].
    apply elem_of_app. by right.
Qed.

Lemma Weeks_body_occurs gitlabClient now range issues body issue :
  Weeks.formatGroupedIssues gitlabClient now range (groupIssuesByProject issues)
  = Ok body ->
  issue ∈ issues ->
  exists mergeRequest,
    Weeks.fetchIssueLastMergeRequest gitlabClient issue = Ok mergeRequest
    /\ occurs_in (Weeks_issueText issue +:+ Weeks_mergeRequestText mergeRequest) body.
Proof.
  rewrite Weeks_formatGroupedIssues_blocks.
  destruct (fetchProjectNameMap gitlabClient now) as [names| |]; [|done..].
  simpl.
  destruct (Weeks_blocks _ _ _) as [blocks| |] eqn:Hbs; simpl; [|done..].
  intros [= <-] Hin.
  destruct (visited_covers range issues issue Hin) as (entry & Hentry & Hissue).
  destruct (Weeks_blocks_occurs _ _ _ _ _ _ Hbs Hentry Hissue)
    as (mergeRequest & block & Hmr & Hblock & Hocc).
  exists mergeRequest. split; [done|]. by eapply occurs_in_Join.
Qed.

Lemma section_rendered issues title (body : outcome string) text :
  issues <> [] ->
  (if (length issues =? 0)%nat then Ok EmptyString
   else if (size (groupIssuesByProject issues) =? 0)%nat then Ok EmptyString
   else body' ← body; Ok (title +:+ body' +:+ CRLF)) = Ok text ->
  exists body', body = Ok body' /\ text = title +:+ body' +:+ CRLF.
Proof.
  intros Hne. destruct issues as [|i issues]; [done|].
  simpl (length _ =? 0)%nat. cbv iota.
  destruct (size _ =? 0)%nat eqn:Hs.
  { apply Nat.eqb_eq, map_size_empty_iff, groupIssuesByProject_empty in Hs. done. }
  destruct body as [body'| |]; simpl; [|done..]. intros [= <-]. by exists body'.
Qed.

Lemma Weeks_closed_section_occurs config gitlabClient now range weeks issues text issue :
  Weeks.fetchClosedLastWeeksIssues config gitlabClient now weeks = Ok issues ->
  Weeks.formatClosedLastWeeksIssues config gitlabClient now range weeks = Ok text ->
  issue ∈ issues ->
  exists mergeRequest,
    Weeks.fetchIssueLastMergeRequest gitlabClient issue = Ok mergeRequest
    /\ occurs_in (Weeks_issueText issue +:+ Weeks_mergeRequestText mergeRequest) text.
Proof.
  intros Hf Ht Hin.
  unfold Weeks.formatClosedLastWeeksIssues in Ht. rewrite Hf in Ht.
  apply section_rendered in Ht as (body & Hb & ->);
    [|by intros ->; apply elem_of_nil in Hin].
  destruct (Weeks_body_occurs _ _ _ _ _ _ Hb Hin) as (mergeRequest & Hmr & Hocc).
  exists mergeRequest. split; [done|].
  by apply occurs_in_append_l, occurs_in_append_r.
Qed.

Lemma Weeks_toClose_section_occurs config gitlabClient now range issues text issue :
  Weeks.fetchToCloseThisWeekIssues config gitlabClient = Ok issues ->
  Weeks.formatToCloseThisWeekIssues config gitlabClient now range = Ok text ->
  issue ∈ issues ->
  exists mergeRequest,
    Weeks.fetchIssueLastMergeRequest gitlabClient issue = Ok mergeRequest
    /\ occurs_in (Weeks_issueText issue +:+ Weeks_mergeRequestText mergeRequest) text.
Proof.
  intros Hf Ht Hin.
  unfold Weeks.formatToCloseThisWeekIssues in Ht. rewrite Hf in Ht.
  apply section_rendered in Ht as (body & Hb & ->);
    [|by intros ->; apply elem_of_nil in Hin].
  destruct (Weeks_body_occurs _ _ _ _ _ _ Hb Hin) as (mergeRequest & Hmr & Hocc).
  exists mergeRequest. split; [done|].
  by apply occurs_in_append_l, occurs_in_append_r.
Qed.

(** X10: in the [-weeks] revision, when a section is rendered, the
    merge-request lookup of every issue fetched for it has returned, and the
    section contains the lines of the issue (title and link, then the due
    date when it has one) followed at once by the line of the merge request
    that was found, if any. *)
Theorem Weeks_every_issue_rendered config gitlabClient now range issue :
  (forall weeks issues text,
      Weeks.fetchClosedLastWeeksIssues config gitlabClient now weeks = Ok issues ->
      Weeks.formatClosedLastWeeksIssues config gitlabClient now range weeks = Ok text ->
      issue ∈ issues ->
      exists mergeRequest,
        Weeks.fetchIssueLastMergeRequest gitlabClient issue = Ok mergeRequest
        /\ occurs_in
             (Weeks_issueText issue +:+ Weeks_mergeRequestText mergeRequest) text)
  /\ (forall issues text,
      Weeks.fetchToCloseThisWeekIssues config gitlabClient = Ok issues ->
      Weeks.formatToCloseThisWeekIssues config gitlabClient now range = Ok text ->
      issue ∈ issues ->
      exists mergeRequest,
        Weeks.fetchIssueLastMergeRequest gitlabClient issue = Ok mergeRequest
        /\ occurs_in
             (Weeks_issueText issue +:+ Weeks_mergeRequestText mergeRequest) text).
Proof.
  split.
  - intros weeks issues text. apply Weeks_closed_section_occurs.
  - intros issues text. apply Weeks_toClose_section_occurs.
Qed.

Lemma Weeks_every_issue_rendered_witness :
  exists mergeRequest,
    Weeks.fetchIssueLastMergeRequest
      (Sample.service [Sample.issue 1 10 0 "Fix 42"] []
         [Sample.mergeRequest 3 "Fix42"])
      (Sample.issue 1 10 0 "Fix 42")
    = Ok mergeRequest
    /\ occurs_in
         (Weeks_issueText (Sample.issue 1 10 0 "Fix 42")
          +:+ Weeks_mergeRequestText mergeRequest)
         ("### Issues closed in the last 2 weeks:" +:+ CRLF +:+ CRLF
          +:+ "#### :" +:+ CRLF
          +:+ "  * [Fix 42](https://git.domain.com/i)" +:+ CRLF
          +:+ "    * Merge request: [MR](https://git.domain.com/mr)" +:+ CRLF
          +:+ CRLF).
Proof.
  apply (proj1 (Weeks_every_issue_rendered Sample.config
                  (Sample.service [Sample.issue 1 10 0 "Fix 42"] []
                     [Sample.mergeRequest 3 "Fix42"])
                  Sample.runDate Sample.ascending (Sample.issue 1 10 0 "Fix 42"))
           2%Z [Sample.issue 1 10 0 "Fix 42"]).
  - vm_compute. reflexivity.
  - vm_compute. reflexivity.
  - apply list_elem_of_singleton. reflexivity.
Defined.

(** X11: in the [-weeks] revision a single fetched issue without assignee
    prevents its section from being rendered: the rendering panics or ends
    in [log.Fatal]. *)
Theorem Weeks_unassigned_issue_stops_report config gitlabClient now range issue :
  Assignee issue = None ->
  (forall weeks issues,
      Weeks.fetchClosedLastWeeksIssues config gitlabClient now weeks = Ok issues ->
      issue ∈ issues ->
      Weeks.formatClosedLastWeeksIssues config gitlabClient now range weeks = Panic
      \/ Weeks.formatClosedLastWeeksIssues config gitlabClient now range weeks
         = Fatal)
  /\ (forall issues,
      Weeks.fetchToCloseThisWeekIssues config gitlabClient = Ok issues ->
      issue ∈ issues ->
      Weeks.formatToCloseThisWeekIssues config gitlabClient now range = Panic
      \/ Weeks.formatToCloseThisWeekIssues config gitlabClient now range = Fatal).
Proof.
  intros Hnone.
  assert (Hpanic : Weeks.fetchIssueLastMergeRequest gitlabClient issue = Panic)
    by (unfold Weeks.fetchIssueLastMergeRequest; by rewrite Hnone).
  split.
  - intros weeks issues Hf Hin.
    destruct (Weeks.formatClosedLastWeeksIssues _ _ _ _ _) as [text| |] eqn:Ht;
      [|by right|by left].
    destruct (Weeks_closed_section_occurs _ _ _ _ _ _ _ _ Hf Ht Hin)
      as (mergeRequest & Hmr & _).
    congruence.
  - intros issues Hf Hin.
    destruct (Weeks.formatToCloseThisWeekIssues _ _ _ _) as [text| |] eqn:Ht;
      [|by right|by left].
    destruct (Weeks_toClose_section_occurs _ _ _ _ _ _ _ Hf Ht Hin)
      as (mergeRequest & Hmr & _).
    congruence.
Qed.

Lemma Weeks_unassigned_issue_stops_report_witness :
  Weeks.formatClosedLastWeeksIssues Sample.config
    (Sample.service [Sample.issue 1 10 0 "Fix 42"; Sample.unassigned 2 10 "Triage"]
       [] [])
    Sample.runDate Sample.ascending 1
  = Panic
  \/ Weeks.formatClosedLastWeeksIssues Sample.config
       (Sample.service [Sample.issue 1 10 0 "Fix 42"; Sample.unassigned 2 10 "Triage"]
          [] [])
       Sample.runDate Sample.ascending 1
     = Fatal.
Proof.
  apply (proj1 (Weeks_unassigned_issue_stops_report Sample.config
                  (Sample.service
                     [Sample.issue 1 10 0 "Fix 42"; Sample.unassigned 2 10 "Triage"]
                     [] [])
                  Sample.runDate Sample.ascending (Sample.unassigned 2 10 "Triage")
                  eq_refl)
           1%Z [Sample.issue 1 10 0 "Fix 42"; Sample.unassigned 2 10 "Triage"]).
  - vm_compute. reflexivity.
  - apply elem_of_cons. right. apply list_elem_of_singleton. reflexivity.
Defined.

(** ** Decimal numerals read back *)

Lemma length_append a b :
  String.length (a +:+ b) = String.length a + String.length b.
Proof.
  induction a as [|c a IH]; [done|]. rewrite append_cons. simpl. by rewrite IH.
Qed.

Lemma atoiFrom_append acc a b :
  atoiFrom acc (a +:+ b) = atoiFrom (atoiFrom acc a) b.
Proof.
  revert acc. induction a as [|c a IH]; intros acc; [done|].
  rewrite append_cons. simpl. by rewrite IH.
Qed.

Lemma digit_value n : nat_of_ascii (digit n) - 48 = n mod 10.
Proof.
  unfold digit. pose proof (Nat.mod_upper_bound n 10 ltac:(lia)) as Hlt.
  rewrite nat_ascii_embedding by lia. lia.
Qed.

Lemma decimal_append fuel n acc :
  decimal fuel n acc = decimal fuel n EmptyString +:+ acc.
Proof.
  revert n acc. induction fuel as [|fuel IH]; intros n acc; simpl; [done|].
  destruct (n <? 10); [done|].
  rewrite (IH _ (String (digit n) acc)), (IH _ (String (digit n) EmptyString)).
  by rewrite append_assoc.
Qed.

Lemma decimal_S fuel n acc :
  decimal (S fuel) n acc
  = if n <? 10 then String (digit n) acc
    else decimal fuel (n / 10) (String (digit n) acc).
Proof. reflexivity. Qed.

Lemma atoiFrom_digit acc n :
  atoiFrom acc (String (digit n) EmptyString) = acc * 10 + n mod 10.
Proof. cbn [atoiFrom]. by rewrite digit_value. Qed.

Lemma atoi_decimal fuel n :
  n < fuel -> atoi (decimal fuel n EmptyString) = n.
Proof.
  unfold atoi. revert n. induction fuel as [|fuel IH]; intros n Hn; [lia|].
  rewrite decimal_S. destruct (Nat.ltb_spec n 10) as [Hsmall|Hbig].
  - rewrite atoiFrom_digit. rewrite Nat.mod_small by done. lia.
  - rewrite decimal_append, atoiFrom_append, IH.
    + rewrite atoiFrom_digit. pose proof (Nat.div_mod_eq n 10). lia.
    + pose proof (Nat.div_lt n 10 ltac:(lia) ltac:(lia)). lia.
Qed.

Lemma atoiFrom_zeros k : atoiFrom 0 (zeros k) = 0.
Proof. induction k as [|k IH]; [done|]. exact IH. Qed.

Lemma atoi_appendInt x width : atoi (appendInt x width) = x.
Proof.
  unfold appendInt, atoi. cbv zeta. rewrite atoiFrom_append, atoiFrom_zeros.
  apply atoi_decimal. lia.
Qed.

Lemma length_decimal fuel n acc w :
  n < 10 ^ w -> 1 <= w ->
  String.length (decimal fuel n acc) <= w + String.length acc.
Proof.
  revert n acc w. induction fuel as [|fuel IH]; intros n acc w Hn Hw.
  - cbn [decimal]. lia.
  - rewrite decimal_S. destruct (Nat.ltb_spec n 10) as [Hsmall|Hbig].
    + cbn [String.length]. lia.
    + destruct w as [|w]; [lia|]. destruct w as [|w].
      * rewrite Nat.pow_1_r in Hn. lia.
      * etrans; [apply (IH _ _ (S w)); [|lia]|cbn [String.length]; lia].
        rewrite (Nat.pow_succ_r' 10 (S w)) in Hn.
        apply Nat.Div0.div_lt_upper_bound. lia.
Qed.

Lemma length_zeros k : String.length (zeros k) = k.
Proof. induction k as [|k IH]; [done|]. cbn [zeros String.length]. by rewrite IH. Qed.

Lemma length_appendInt x width :
  x < 10 ^ width -> 1 <= width -> String.length (appendInt x width) = width.
Proof.
  intros Hx Hw. unfold appendInt, Itoa. cbv zeta.
  rewrite length_append, length_zeros.
  pose proof (length_decimal (S x) x EmptyString width Hx Hw) as Hlen.
  cbn [String.length] in Hlen. lia.
Qed.

(** ** The message *)

Lemma Weekly_sendEmail_message config now SendMail msgBody message :
  Weekly.sendEmail config now SendMail msgBody = Ok message ->
  message
  = messageHead config
      (appendInt (Year now) 4 +:+ "-" +:+ appendInt (Month now) 2 +:+ "-"
       +:+ appendInt (Month now) 2)
    +:+ msgBody +:+ CRLF.
Proof.
  unfold Weekly.sendEmail. cbv zeta. rewrite Format_month_layout.
  destruct (SendMail _ _ _ _); [done|]. intros [= <-].
  unfold messageHead. by rewrite !append_assoc.
Qed.

Lemma Weeks_sendEmail_message config now SendMail msgBody message :
  Weeks.sendEmail config now SendMail msgBody = Ok message ->
  message = messageHead config (isoDate_spec now) +:+ msgBody +:+ CRLF.
Proof.
  intros ->%Weeks_sendEmail_subject. unfold messageHead. by rewrite !append_assoc.
Qed.

(** X12: the message [weeports.go] sends carries the date as year, month
    and month again; that text is the run date in YYYY-MM-DD form exactly
    when the day of the month equals the number of the month. *)
Theorem Weekly_sendEmail_date config now SendMail msgBody :
  (forall message,
      Weekly.sendEmail config now SendMail msgBody = Ok message ->
      message
      = messageHead config
          (appendInt (Year now) 4 +:+ "-" +:+ appendInt (Month now) 2 +:+ "-"
           +:+ appendInt (Month now) 2)
        +:+ msgBody +:+ CRLF)
  /\ (appendInt (Year now) 4 +:+ "-" +:+ appendInt (Month now) 2 +:+ "-"
      +:+ appendInt (Month now) 2
      = isoDate_spec now
      <-> Day now = Month now).
Proof.
  split; [apply Weekly_sendEmail_message|].
  unfold isoDate_spec. split.
  - intros Heq. do 4 apply (inj (String.app _)) in Heq.
    apply (f_equal atoi) in Heq. by rewrite !atoi_appendInt in Heq.
  - by intros ->.
Qed.

(** X13: the message the [-weeks] revision sends is the recipient line, the
    subject "Weekly report (YYYY-MM-DD)", an empty line, the body and a line
    end; for a year below 10000 the date has exactly ten characters, and its
    three fields read back as the year, the month and the day. *)
Theorem Weeks_sendEmail_date config now SendMail msgBody :
  (forall message,
      Weeks.sendEmail config now SendMail msgBody = Ok message ->
      message = messageHead config (isoDate_spec now) +:+ msgBody +:+ CRLF)
  /\ (Year now < 10 ^ 4 -> Month now < 10 ^ 2 -> Day now < 10 ^ 2 ->
      String.length (isoDate_spec now) = 10)
  /\ atoi (appendInt (Year now) 4) = Year now
  /\ atoi (appendInt (Month now) 2) = Month now
  /\ atoi (appendInt (Day now) 2) = Day now.
Proof.
  split; [apply Weeks_sendEmail_message|].
  split; [|by rewrite !atoi_appendInt].
  intros Hy Hm Hd. unfold isoDate_spec. rewrite !length_append.
  rewrite !length_appendInt by (done || lia). reflexivity.
Qed.

(** ** The difficulties read from standard input *)

Lemma TrimSpace_empty_bullet text : TrimSpace_empty ("  * " +:+ text) = false.
Proof. unfold TrimSpace_empty. by destruct text as [|c2 [|c3 text]]. Qed.

Lemma TrimSpace_empty_bullets line lines :
  TrimSpace_empty (bullets (line :: lines)) = false.
Proof. apply TrimSpace_empty_bullet. Qed.

Lemma readDifficulties_blank difficulties lines blank rest :
  Forall (fun line => TrimSpace_empty line = false) lines ->
  TrimSpace_empty blank = true ->
  Weeks.readDifficulties difficulties (lines ++ blank :: rest)
  = Ok (difficulties +:+ bullets lines, rest).
Proof.
  intros Hlines Hblank. revert difficulties.
  induction Hlines as [|line lines Hline _ IH]; intros difficulties.
  - cbn [app Weeks.readDifficulties bullets]. by rewrite Hblank, append_empty_r.
  - cbn [app Weeks.readDifficulties bullets]. rewrite Hline, IH.
    by rewrite !append_assoc.
Qed.

Lemma readDifficulties_end difficulties lines :
  Forall (fun line => TrimSpace_empty line = false) lines ->
  Weeks.readDifficulties difficulties lines = Fatal.
Proof.
  intros Hlines. revert difficulties.
  induction Hlines as [|line lines Hline _ IH]; intros difficulties; [done|].
  cbn [Weeks.readDifficulties]. by rewrite Hline, IH.
Qed.

(** X14: [readAndFormatMainDifficulties] reads lines up to the first blank
    one and leaves the rest unread.  With no line before the blank one it
    returns the empty string; otherwise it returns the heading, one bullet
    per line read, and a line end.  When the input ends before a blank line
    it ends in [log.Fatal]. *)
Theorem readAndFormatMainDifficulties_cases lines :
  Forall (fun line => TrimSpace_empty line = false) lines ->
  Weeks.readAndFormatMainDifficulties lines = Fatal
  /\ (forall blank rest,
        TrimSpace_empty blank = true ->
        Weeks.readAndFormatMainDifficulties (lines ++ blank :: rest)
        = Ok (match lines with
              | [] => EmptyString
              | _ => "### Main difficulties:" +:+ CRLF +:+ bullets lines +:+ CRLF
              end, rest)).
Proof.
  intros Hlines. unfold Weeks.readAndFormatMainDifficulties. cbv zeta. split.
  - by rewrite readDifficulties_end.
  - intros blank rest Hblank.
    rewrite readDifficulties_blank by done.
    rewrite append_nil. destruct lines as [|line lines]; [done|].
    cbn [mbind outcome_bind]. by rewrite TrimSpace_empty_bullets.
Qed.

Example TrimSpace_empty_newline : TrimSpace_empty (String LF EmptyString) = true.
Proof. reflexivity. Qed.

Example TrimSpace_empty_no_break_space :
  TrimSpace_empty
    (String (ascii_of_nat 194) (String (ascii_of_nat 160) CRLF)) = true.
Proof. reflexivity. Qed.

Example TrimSpace_empty_text : TrimSpace_empty (" a" +:+ CRLF) = false.
Proof. reflexivity. Qed.

Example TrimSpace_empty_invalid_byte :
  TrimSpace_empty (String (ascii_of_nat 194) (String LF EmptyString)) = false.
Proof. reflexivity. Qed.

Lemma readAndFormatMainDifficulties_cases_witness :
  Weeks.readAndFormatMainDifficulties
    (["slow reviews" +:+ String LF EmptyString;
      "flaky pipeline" +:+ String LF EmptyString]
     ++ String LF EmptyString :: ["left unread" +:+ String LF EmptyString])
  = Ok ("### Main difficulties:" +:+ CRLF
        +:+ bullets ["slow reviews" +:+ String LF EmptyString;
                     "flaky pipeline" +:+ String LF EmptyString]
        +:+ CRLF,
        ["left unread" +:+ String LF EmptyString]).
Proof.
  apply (proj2 (readAndFormatMainDifficulties_cases
                  ["slow reviews" +:+ String LF EmptyString;
                   "flaky pipeline" +:+ String LF EmptyString]
                  ltac:(repeat constructor))).
  reflexivity.
Defined.

(** ** The configuration check *)

Lemma checkConfigFields_complete config :
  complete config = true -> checkConfigFields config = Ok None.
Proof.
  unfold complete, checkConfigFields.
  repeat (intros [H ->%negb_true_iff]%andb_true_iff; revert H).
  by intros ->%negb_true_iff.
Qed.

Lemma checkConfigFields_incomplete config :
  complete config = false ->
  checkConfigFields config = Fatal
  \/ exists msg, checkConfigFields config = Ok (Some msg).
Proof.
  unfold complete, checkConfigFields.
  destruct (String.eqb (GitlabUrl config) EmptyString); [by right; eexists|].
  destruct (String.eqb (GitlabToken config) EmptyString); [by right; eexists|].
  destruct (String.eqb (GitlabUsername config) EmptyString); [by right; eexists|].
  destruct (String.eqb (SMTPUsername config) EmptyString); [by left|].
  destruct (String.eqb (SMTPPassword config) EmptyString); [by left|].
  destruct (String.eqb (SMTPHost config) EmptyString); [by left|].
  destruct (String.eqb (SMTPPort config) EmptyString); [by left|].
  destruct (String.eqb (RecipientEmail config) EmptyString); [by left|done].
Qed.

(** X15: [checkConfigFields] returns no error exactly when all eight fields
    are filled in.  A missing GitLab field is reported as a returned error,
    also when an SMTP field is missing too; with the GitLab fields present,
    a missing SMTP or recipient field ends in [log.Fatalln]. *)
Theorem checkConfigFields_cases config :
  (checkConfigFields config = Ok None <-> complete config = true)
  /\ (GitlabUrl config = EmptyString \/ GitlabToken config = EmptyString
      \/ GitlabUsername config = EmptyString ->
      exists msg, checkConfigFields config = Ok (Some msg))
  /\ (GitlabUrl config <> EmptyString -> GitlabToken config <> EmptyString ->
      GitlabUsername config <> EmptyString ->
      complete config = false -> checkConfigFields config = Fatal).
Proof.
  split; [|split].
  - split; [|apply checkConfigFields_complete].
    intros Hnil. destruct (complete config) eqn:Hc; [done|].
    destruct (checkConfigFields_incomplete config Hc) as [H|[msg H]]; congruence.
  - unfold checkConfigFields.
    destruct (String.eqb_spec (GitlabUrl config) EmptyString); [by eexists|].
    destruct (String.eqb_spec (GitlabToken config) EmptyString); [by eexists|].
    destruct (String.eqb_spec (GitlabUsername config) EmptyString); [by eexists|].
    intros [|[|]]; done.
  - intros Hu Ht Hn Hc.
    destruct (checkConfigFields_incomplete config Hc) as [H|[msg H]]; [done|].
    exfalso. revert H. unfold checkConfigFields.
    destruct (String.eqb_spec (GitlabUrl config) EmptyString); [done|].
    destruct (String.eqb_spec (GitlabToken config) EmptyString); [done|].
    destruct (String.eqb_spec (GitlabUsername config) EmptyString); [done|].
    repeat (match goal with |- context [if ?b then _ else _] => destruct b end;
            [done|]).
    done.
Qed.

Example checkConfigFields_gitlab_before_smtp :
  checkConfigFields
    {| GitlabUrl := EmptyString; GitlabToken := "gitlab-secret-token";
       GitlabUsername := "gitlab-username"; SMTPUsername := EmptyString;
       SMTPPassword := "email-password"; SMTPHost := "smtp.domain.com";
       SMTPPort := "584"; RecipientEmail := "manager@domain.com" |}
  = Ok (Some "no GitLab URL specified in the config file").
Proof. reflexivity. Qed.

(** ** The whole run *)

(** X16: with a field of the configuration missing, the run ends in
    [log.Fatal] whatever the service, the input and the mail transport
    are. *)
Theorem main_incomplete_config config gitlabClient now range SendMail :
  complete config = false ->
  Weekly.main config gitlabClient now range SendMail = Fatal
  /\ forall weeks stdin,
       Weeks.main config gitlabClient now range weeks stdin SendMail = Fatal.
Proof.
  intros Hc. unfold Weekly.main, Weeks.main.
  destruct (checkConfigFields_incomplete config Hc) as [->|[msg ->]]; by split.
Qed.

Lemma main_incomplete_config_witness :
  Weekly.main
    {| GitlabUrl := "https://git.domain.com"; GitlabToken := "gitlab-secret-token";
       GitlabUsername := "gitlab-username"; SMTPUsername := "email-username";
       SMTPPassword := "email-password"; SMTPHost := "smtp.domain.com";
       SMTPPort := "584"; RecipientEmail := EmptyString |}
    (Sample.service [] [] []) Sample.runDate Sample.ascending Sample.sent
  = Fatal.
Proof.
  apply (proj1 (main_incomplete_config
                  {| GitlabUrl := "https://git.domain.com";
                     GitlabToken := "gitlab-secret-token";
                     GitlabUsername := "gitlab-username";
                     SMTPUsername := "email-username";
                     SMTPPassword := "email-password";
                     SMTPHost := "smtp.domain.com";
                     SMTPPort := "584"; RecipientEmail := EmptyString |}
                  (Sample.service [] [] []) Sample.runDate Sample.ascending
                  Sample.sent eq_refl)).
Defined.

(** X17: when there is nothing to report (no closed issue, no issue due,
    and in the [-weeks] revision a blank first input line) and the transport
    accepts the message, the program still sends an email: the head and an
    empty body. *)
Theorem main_empty_report config gitlabClient now range SendMail :
  complete config = true ->
  (forall addr from to msg, SendMail addr from to msg = false) ->
  (Weekly.fetchClosedLastWeekIssues config gitlabClient now = Ok [] ->
   Weekly.fetchToCloseThisWeekIssues config gitlabClient = Ok [] ->
   Weekly.main config gitlabClient now range SendMail
   = Ok (messageHead config
           (appendInt (Year now) 4 +:+ "-" +:+ appendInt (Month now) 2 +:+ "-"
            +:+ appendInt (Month now) 2)
         +:+ CRLF))
  /\ (forall weeks blank rest,
      Weeks.fetchClosedLastWeeksIssues config gitlabClient now weeks = Ok [] ->
      Weeks.fetchToCloseThisWeekIssues config gitlabClient = Ok [] ->
      TrimSpace_empty blank = true ->
      Weeks.main config gitlabClient now range weeks (blank :: rest) SendMail
      = Ok (messageHead config (isoDate_spec now) +:+ CRLF)).
Proof.
  intros Hc Hsend. split.
  - intros Hclosed Htoclose. unfold Weekly.main.
    rewrite (checkConfigFields_complete _ Hc). cbn [mbind outcome_bind].
    unfold Weekly.formatClosedLastWeekIssues, Weekly.formatToCloseThisWeekIssues.
    rewrite Hclosed, Htoclose. cbn [mbind outcome_bind length Nat.eqb].
    destruct (Weekly.sendEmail config now SendMail (EmptyString +:+ EmptyString))
      as [message| |] eqn:Hm.
    + apply Weekly_sendEmail_message in Hm. by rewrite Hm.
    + unfold Weekly.sendEmail in Hm. cbv zeta in Hm. by rewrite Hsend in Hm.
    + unfold Weekly.sendEmail in Hm. cbv zeta in Hm. by rewrite Hsend in Hm.
  - intros weeks blank rest Hclosed Htoclose Hblank. unfold Weeks.main.
    rewrite (checkConfigFields_complete _ Hc). cbn [mbind outcome_bind].
    unfold Weeks.formatClosedLastWeeksIssues, Weeks.formatToCloseThisWeekIssues.
    rewrite Hclosed, Htoclose. cbn [mbind outcome_bind length Nat.eqb].
    unfold Weeks.readAndFormatMainDifficulties. cbv zeta.
    cbn [Weeks.readDifficulties]. rewrite Hblank. cbn [mbind outcome_bind].
    change (TrimSpace_empty EmptyString) with true. cbv iota.
    cbn [mbind outcome_bind].
    destruct (Weeks.sendEmail config now SendMail _) as [message| |] eqn:Hm.
    + apply Weeks_sendEmail_message in Hm. by rewrite Hm.
    + unfold Weeks.sendEmail in Hm. cbv zeta in Hm. by rewrite Hsend in Hm.
    + unfold Weeks.sendEmail in Hm. cbv zeta in Hm. by rewrite Hsend in Hm.
Qed.

Lemma main_empty_report_witness :
  Weekly.main Sample.config (Sample.service [] [] []) Sample.runDate
    Sample.ascending Sample.sent
  = Ok (messageHead Sample.config
          (appendInt (Year Sample.runDate) 4 +:+ "-"
           +:+ appendInt (Month Sample.runDate) 2 +:+ "-"
           +:+ appendInt (Month Sample.runDate) 2)
        +:+ CRLF).
Proof.
  apply (proj1 (main_empty_report Sample.config (Sample.service [] [] [])
                  Sample.runDate Sample.ascending Sample.sent eq_refl
                  (fun _ _ _ _ => eq_refl))); reflexivity.
Defined.

(** X18: the body of the message that is sent is the closed-issues section
    followed by the due-this-week section, followed in the [-weeks] revision
    by the difficulties read from the input, each as its own function
    rendered it. *)
Theorem main_sections_in_order config gitlabClient now range SendMail message :
  (Weekly.main config gitlabClient now range SendMail = Ok message ->
   exists closed toClose,
     Weekly.formatClosedLastWeekIssues config gitlabClient now range = Ok closed
     /\ Weekly.formatToCloseThisWeekIssues config gitlabClient now range = Ok toClose
     /\ message
        = messageHead config
            (appendInt (Year now) 4 +:+ "-" +:+ appendInt (Month now) 2 +:+ "-"
             +:+ appendInt (Month now) 2)
          +:+ closed +:+ toClose +:+ CRLF)
  /\ (forall weeks stdin,
      Weeks.main config gitlabClient now range weeks stdin SendMail = Ok message ->
      exists closed toClose difficulties rest,
        Weeks.formatClosedLastWeeksIssues config gitlabClient now range weeks
        = Ok closed
        /\ Weeks.formatToCloseThisWeekIssues config gitlabClient now range
           = Ok toClose
        /\ Weeks.readAndFormatMainDifficulties stdin = Ok (difficulties, rest)
        /\ message
           = messageHead config (isoDate_spec now)
             +:+ closed +:+ toClose +:+ difficulties +:+ CRLF).
Proof.
  split.
  - unfold Weekly.main.
    destruct (checkConfigFields config) as [[msg|]| |]; [done| |done..].
    cbn [mbind outcome_bind].
    destruct (Weekly.formatClosedLastWeekIssues _ _ _ _) as [closed| |]; [|done..].
    cbn [mbind outcome_bind].
    destruct (Weekly.formatToCloseThisWeekIssues _ _ _ _) as [toClose| |]; [|done..].
    cbn [mbind outcome_bind]. intros Hm%Weekly_sendEmail_message.
    exists closed, toClose. by rewrite Hm, !append_assoc.
  - intros weeks stdin. unfold Weeks.main.
    destruct (checkConfigFields config) as [[msg|]| |]; [done| |done..].
    cbn [mbind outcome_bind].
    destruct (Weeks.formatClosedLastWeeksIssues _ _ _ _ _) as [closed| |]; [|done..].
    cbn [mbind outcome_bind].
    destruct (Weeks.formatToCloseThisWeekIssues _ _ _ _) as [toClose| |]; [|done..].
    cbn [mbind outcome_bind].
    destruct (Weeks.readAndFormatMainDifficulties stdin)
      as [[difficulties rest]| |]; [|done..].
    cbn [mbind outcome_bind]. intros Hm%Weeks_sendEmail_message.
    exists closed, toClose, difficulties, rest. by rewrite Hm, !append_assoc.
Qed.
